(** * awair_exporter: the device registry and the scrape collector of main.go

    A shallow embedding of [parseDevices], [newCollector], [Describe],
    [collectOne], [Collect] and [celsiusToFahrenheit], and the properties the
    specification states about them.

    Go strings are byte sequences: they are [string] here, one [ascii] per
    byte.  A Go [map[string]string] is a [gmap string string].  A [float64] is a
    primitive binary64 float.  A Go [int] is a [Z]. *)

From Stdlib Require Import ZArith Floats Ascii String.
From stdpp Require Import gmap strings list fin_maps.

Open Scope string_scope.

(** ** Strings *)

Module Strings.

(** [strings.LastIndex(s, substr)]: the byte index of the last instance of
    [substr] in [s], or -1 if there is none. *)
Fixpoint LastIndex (s substr : string) : Z :=
  match s with
  | EmptyString => if decide (substr = "") then 0 else (-1)
  | String _ rest =>
      let i := LastIndex rest substr in
      if (0 <=? i)%Z then (i + 1)%Z
      else if String.prefix substr s then 0%Z
      else (-1)%Z
  end.

(** The slice expressions [s[:hi]] and [s[lo:]].  The indices are in range at
    every use in the program, so the run-time panic is not modelled; out of
    range these give what [substring] gives. *)
Definition slice_to (s : string) (hi : Z) : string :=
  String.substring 0 (Z.to_nat hi) s.

Definition slice_from (s : string) (lo : Z) : string :=
  String.substring (Z.to_nat lo) (String.length s - Z.to_nat lo) s.

End Strings.

(** ** The device registry *)

(** The value built by [fmt.Errorf(format, args...)]: the format and its
    operands are kept, the rendering of the verbs is not modelled. *)
Inductive error : Type :=
| Errorf (format : string) (operands : list string).

Definition parse_step (devices : gmap string string) (arg : string)
  : gmap string string + error :=
  let index := Strings.LastIndex arg "=" in
  if (index <? 0)%Z then
    inr (Errorf "expected key=value, got %q" [arg])
  else
    inl (<[Strings.slice_to arg index := Strings.slice_from arg (index + 1)]> devices).

(** The loop of [parseDevices], from the map built so far. *)
Fixpoint parse_loop (devices : gmap string string) (args : list string)
  : gmap string string + error :=
  match args with
  | [] => inl devices
  | arg :: rest =>
      match parse_step devices arg with
      | inl devices' => parse_loop devices' rest
      | inr err => inr err
      end
  end.

(** [parseDevices] parses a list of "key=value" strings into a map. *)
Definition parseDevices (args : list string) : gmap string string + error :=
  parse_loop ∅ args.

(** ** Tokens *)

(** Whether the byte '=' occurs in a string. *)
Fixpoint has_delim (s : string) : bool :=
  match s with
  | EmptyString => false
  | String c rest => if decide (c = "="%char) then true else has_delim rest
  end.

(** The token [name=address]. *)
Definition token (p : string * string) : string := p.1 ++ "=" ++ p.2.

(** The map after binding each name to its address, in order. *)
Definition bind_all (devices : gmap string string) (pairs : list (string * string))
  : gmap string string :=
  foldl (λ m p, <[p.1 := p.2]> m) devices pairs.

(** An address is the part of a token after its last delimiter. *)
Definition plain (p : string * string) : Prop := has_delim p.2 = false.

(** ** Metrics *)

(** A [prometheus.Desc] as [prometheus.NewDesc] builds it. *)
Record Desc : Type := NewDesc {
  fqName : string;
  help : string;
  variableLabels : list string;
  constLabels : list (string * string)
}.

Inductive ValueType : Type := CounterValue | GaugeValue | UntypedValue.

(** A constant metric: a descriptor, the type and the value of the sample, and
    one value per variable label of the descriptor. *)
Record Metric : Type := ConstMetric {
  desc : Desc;
  valueType : ValueType;
  value : float;
  labelValues : list string
}.

(** [prometheus.MustNewConstMetric].  The library panics when the number of
    label values differs from the number of variable labels of the descriptor
    ([well_labelled] is that precondition) and when a label value is not valid
    UTF-8; device names are taken to be valid UTF-8. *)
Definition MustNewConstMetric (d : Desc) (t : ValueType) (v : float)
  (labels : list string) : Metric :=
  ConstMetric d t v labels.

Definition well_labelled (m : Metric) : Prop :=
  length (labelValues m) = length (variableLabels (desc m)).

#[global] Instance Desc_eq_dec : EqDecision Desc.
Proof. solve_decision. Defined.

#[global] Instance ValueType_eq_dec : EqDecision ValueType.
Proof. solve_decision. Defined.

(** The conversion [float64(n)] of an [int]: the nearest binary64 value, ties
    to even. *)
Definition float64_of_int (n : Z) : float :=
  SF2Prim (binary_normalize prec emax n 0 false).

Definition celsiusToFahrenheit (tempC : float) : float :=
  (tempC * 9 / 5 + 32)%float.

(** ** The collector *)

(** The configuration of the [http.Client]; the timeout is in nanoseconds. *)
Record http_Client : Type := { Timeout : Z }.

Record collector : Type := {
  Client : http_Client;
  (* DeviceAddrs maps a readable device name to its scrape addr *)
  DeviceAddrs : gmap string string;
  Errors : Desc;
  Score : Desc;
  DewPointC : Desc;
  DewPointF : Desc;
  TempC : Desc;
  TempF : Desc;
  Humid : Desc;
  AbsHumid : Desc;
  Co2 : Desc;
  Co2Est : Desc;
  Co2EstBaseline : Desc;
  Voc : Desc;
  VocBaseline : Desc;
  VocH2Raw : Desc;
  VocEthanolRaw : Desc;
  Pm25 : Desc;
  Pm10Est : Desc
}.

Definition newCollector (client : http_Client) (deviceAddrs : gmap string string)
  : collector := {|
  Client := client;
  DeviceAddrs := deviceAddrs;
  Errors := NewDesc "awair_collection_errors_total"
    "Errors observed when collecting device metrics" ["sensor"] [];
  Score := NewDesc "awair_score"
    "Awair Score (0-100)" ["sensor"] [];
  DewPointC := NewDesc "awair_dew_point"
    "The temperature at which water will condense and form into dew (C)" ["sensor"] [];
  DewPointF := NewDesc "awair_dew_point_f"
    "The temperature at which water will condense and form into dew (F)" ["sensor"] [];
  TempC := NewDesc "awair_temp"
    "Dry bulb temperature (C)" ["sensor"] [];
  TempF := NewDesc "awair_temp_f"
    "Dry bulb temperature (F)" ["sensor"] [];
  Humid := NewDesc "awair_humid"
    "Relative humidity (%)" ["sensor"] [];
  AbsHumid := NewDesc "awair_abs_humid"
    "Absolute humidity (g/m^3)" ["sensor"] [];
  Co2 := NewDesc "awair_co2"
    "Carbon Dioxide (ppm)" ["sensor"] [];
  Co2Est := NewDesc "awair_co2_est"
    "Estimated Carbon Dioxide calculated by TVOC sensor (ppm)" ["sensor"] [];
  Co2EstBaseline := NewDesc "awair_co2_est_baseline"
    "A unitless value that represents the baseline from which the TVOC sensor partially derives its estimate" ["sensor"] [];
  Voc := NewDesc "awair_voc"
    "Total Volatile organic compounds (ppb)" ["sensor"] [];
  VocBaseline := NewDesc "awair_voc_baseline"
    "A unitless value that represents the baseline from which the TVOC sensor partially derives its TVOC output" ["sensor"] [];
  VocH2Raw := NewDesc "awair_voc_h2_raw"
    "A unitless value that represents the Hydrogen gas signal from which the TVOC sensor partially derives its TVOC output" ["sensor"] [];
  VocEthanolRaw := NewDesc "awair_voc_ethanol_raw"
    "A unitless value that represents the Ethanol gas signal from which the TVOC sensor partially derives its TVOC output" ["sensor"] [];
  Pm25 := NewDesc "awair_pm25"
    "Particulate matter less than 2.5 microns in diameter (µg/m³)" ["sensor"] [];
  Pm10Est := NewDesc "awair_pm10_est"
    "Estimated particulate matter less than 10 microns in diameter (µg/m³ - calculated by the PM2.5 sensor)" ["sensor"] []
|}.

(** [Describe]: the descriptors sent on the channel, in order. *)
Definition Describe (c : collector) : list Desc :=
  [ Errors c; Score c; DewPointC c; DewPointF c; TempC c; TempF c; Humid c;
    AbsHumid c; Co2 c; Co2Est c; Co2EstBaseline c; Voc c; VocBaseline c;
    VocH2Raw c; VocEthanolRaw c; Pm25 c; Pm10Est c ].

(** The struct [airData] that the body of a response is decoded into. *)
Module AirData.
Record t : Type := {
  Timestamp : string;
  Score : Z;
  DewPoint : float;
  Temp : float;
  Humid : float;
  AbsHumid : float;
  Co2 : Z;
  Co2Est : Z;
  Co2EstBaseline : Z;
  Voc : Z;
  VocBaseline : Z;
  VocH2Raw : Z;
  VocEthanolRaw : Z;
  Pm25 : Z;
  Pm10Est : Z
}.
End AirData.

(** The errors of the collaborators: a failed request and a failed decode. *)
Inductive io_error : Type :=
| TransportError (reason : string)
| DecodeError (reason : string).

(** An [http.Response].  The body is represented by what
    [json.NewDecoder(resp.Body).Decode(&airData)] makes of it. *)
Record Response : Type := {
  StatusCode : Z;
  Status : string;
  Body : AirData.t + io_error
}.

(** What [c.Client.Get(url)] returns: the network as one request sees it. *)
Definition Get_t : Type := string -> Response + io_error.

(** The metrics endpoint of a device. *)
Definition endpoint (addr : string) : string :=
  "http://" ++ addr ++ "/air-data/latest".

(** [collectOne]: the metrics sent on the channel, in order.  The log lines
    are not modelled. *)
Definition collectOne (c : collector) (Get : Get_t) (name addr : string)
  : list Metric :=
  let url := endpoint addr in
  match Get url with
  | inr _ => []
  | inl resp =>
      let labels := [name] in
      if negb (StatusCode resp =? 200)%Z then
        [ MustNewConstMetric (Errors c) CounterValue 1 labels ]
      else
        match Body resp with
        | inr _ => [ MustNewConstMetric (Errors c) CounterValue 1 [name] ]
        | inl airData =>
            [ MustNewConstMetric (Score c) GaugeValue (float64_of_int (AirData.Score airData)) labels;
              MustNewConstMetric (DewPointC c) GaugeValue (AirData.DewPoint airData) labels;
              MustNewConstMetric (DewPointF c) GaugeValue (celsiusToFahrenheit (AirData.DewPoint airData)) labels;
              MustNewConstMetric (TempC c) GaugeValue (AirData.Temp airData) labels;
              MustNewConstMetric (TempF c) GaugeValue (celsiusToFahrenheit (AirData.Temp airData)) labels;
              MustNewConstMetric (Humid c) GaugeValue (AirData.Humid airData) labels;
              MustNewConstMetric (AbsHumid c) GaugeValue (AirData.AbsHumid airData) labels;
              MustNewConstMetric (Co2 c) GaugeValue (float64_of_int (AirData.Co2 airData)) labels;
              MustNewConstMetric (Co2Est c) GaugeValue (float64_of_int (AirData.Co2Est airData)) labels;
              MustNewConstMetric (Co2EstBaseline c) GaugeValue (float64_of_int (AirData.Co2EstBaseline airData)) labels;
              MustNewConstMetric (Voc c) GaugeValue (float64_of_int (AirData.Voc airData)) labels;
              MustNewConstMetric (VocBaseline c) GaugeValue (float64_of_int (AirData.VocBaseline airData)) labels;
              MustNewConstMetric (VocEthanolRaw c) GaugeValue (float64_of_int (AirData.VocEthanolRaw airData)) labels;
              MustNewConstMetric (VocH2Raw c) GaugeValue (float64_of_int (AirData.VocH2Raw airData)) labels;
              MustNewConstMetric (Pm25 c) GaugeValue (float64_of_int (AirData.Pm25 airData)) labels;
              MustNewConstMetric (Pm10Est c) GaugeValue (float64_of_int (AirData.Pm10Est airData)) labels ]
        end
  end.


(** The two gauges that are derived from another field. *)
Definition derived (c : collector) (m : Metric) : Prop :=
  desc m = DewPointF c \/ desc m = TempF c.

#[global] Instance derived_dec c m : Decision (derived c m).
Proof. unfold derived. apply _. Defined.

(** ** One round of collection

    [Collect] starts one goroutine per device and waits for all of them.  The
    round is a transition system: the main goroutine and the device goroutines
    take steps in any order the scheduler picks.  A send on the channel is one
    step; the reader of the channel is always ready.  A request is one step
    too: the client has a timeout, so a request ends, with a response or with
    an error. *)

(** Where a device goroutine is. *)
Inductive g_pc : Type :=
| G_call                          (* about to call collectOne *)
| G_send (pending : list Metric)  (* in collectOne after the request: the sends still to do *)
| G_exit.                         (* collectOne returned and wg.Done() ran *)

Record goroutine : Type := {
  g_name : string;
  g_addr : string;
  g_at : g_pc
}.

(** Where the main goroutine is. *)
Inductive main_pc : Type :=
| M_add                                  (* before wg.Add(len(c.DeviceAddrs)) *)
| M_range (rest : gmap string string)    (* in the loop: the entries not visited yet *)
| M_wait                                 (* in wg.Wait() *)
| M_return.                              (* Collect has returned *)

(** One request: the device, the URL and what the client returned. *)
Definition attempt : Type := string * string * (Response + io_error).

Record state : Type := {
  pc : main_pc;
  wg : Z;                        (* the counter of the WaitGroup *)
  goroutines : list goroutine;
  ch : list Metric;              (* everything sent on the channel so far *)
  attempts : list attempt        (* every request made so far *)
}.

Definition init : state :=
  {| pc := M_add; wg := 0; goroutines := []; ch := []; attempts := [] |}.

(** What the scheduler and the environment choose at a step: a step of the
    main goroutine ([pick] is the entry a [range] over the map visits next), or
    a step of the [i]-th device goroutine ([Get] is how the network answers if
    the step is the request). *)
Inductive action : Type :=
| A_main (pick : string)
| A_go (i : nat) (Get : Get_t).

Definition step_main (c : collector) (s : state) (pick : string) : option state :=
  match pc s with
  | M_add =>
      Some {| pc := M_range (DeviceAddrs c);
              wg := wg s + Z.of_nat (size (DeviceAddrs c));
              goroutines := goroutines s; ch := ch s; attempts := attempts s |}
  | M_range rest =>
      if decide (rest = ∅) then
        Some {| pc := M_wait; wg := wg s;
                goroutines := goroutines s; ch := ch s; attempts := attempts s |}
      else
        match rest !! pick with
        | Some addr =>
            Some {| pc := M_range (delete pick rest); wg := wg s;
                    goroutines := goroutines s ++ [ {| g_name := pick; g_addr := addr; g_at := G_call |} ];
                    ch := ch s; attempts := attempts s |}
        | None => None
        end
  | M_wait =>
      if decide (wg s = 0%Z) then
        Some {| pc := M_return; wg := wg s;
                goroutines := goroutines s; ch := ch s; attempts := attempts s |}
      else None
  | M_return => None
  end.

Definition step_go (c : collector) (s : state) (i : nat) (Get : Get_t) : option state :=
  match goroutines s !! i with
  | None => None
  | Some g =>
      let at_ (p : g_pc) :=
        <[i := {| g_name := g_name g; g_addr := g_addr g; g_at := p |}]> (goroutines s) in
      match g_at g with
      | G_call =>
          Some {| pc := pc s; wg := wg s;
                  goroutines := at_ (G_send (collectOne c Get (g_name g) (g_addr g)));
                  ch := ch s;
                  attempts := attempts s ++ [ (g_name g, endpoint (g_addr g), Get (endpoint (g_addr g))) ] |}
      | G_send (m :: pending) =>
          Some {| pc := pc s; wg := wg s;
                  goroutines := at_ (G_send pending);
                  ch := ch s ++ [m];
                  attempts := attempts s |}
      | G_send [] =>
          Some {| pc := pc s; wg := (wg s - 1)%Z;
                  goroutines := at_ G_exit;
                  ch := ch s; attempts := attempts s |}
      | G_exit => None
      end
  end.

(** One step; [None] when the action is not enabled. *)
Definition step (c : collector) (s : state) (a : action) : option state :=
  match a with
  | A_main pick => step_main c s pick
  | A_go i Get => step_go c s i Get
  end.

Fixpoint run (c : collector) (acts : list action) (s : state) : option state :=
  match acts with
  | [] => Some s
  | a :: acts' =>
      match step c s a with
      | Some s' => run c acts' s'
      | None => None
      end
  end.

(** The metrics on the channel that carry the label value [name]. *)
Definition emitted (name : string) (out : list Metric) : list Metric :=
  filter (λ m, labelValues m = [name]) out.

(** The requests made for the device [name]. *)
Definition attempts_of (name : string) (log : list attempt) : list attempt :=
  filter (λ t, t.1.1 = name) log.

(** The entries of the registry that the loop of [Collect] has not visited. *)
Definition unvisited (c : collector) (s : state) : gmap string string :=
  match pc s with
  | M_add => DeviceAddrs c
  | M_range rest => rest
  | M_wait | M_return => ∅
  end.

(** A goroutine that has not called [wg.Done()] yet counts 1. *)
Definition live (g : goroutine) : nat :=
  match g_at g with G_exit => 0 | _ => 1 end.

(** A goroutine that has made its request counts 1. *)
Definition requested (g : goroutine) : nat :=
  match g_at g with G_call => 0 | _ => 1 end.

(** A bound on the steps a goroutine can still take. *)
Definition weight (g : goroutine) : nat :=
  match g_at g with
  | G_call => 18
  | G_send pending => S (length pending)
  | G_exit => 0
  end.

(** A bound on the steps the round can still take. *)
Definition fuel (c : collector) (s : state) : nat :=
  match pc s with
  | M_add => 19 * size (DeviceAddrs c) + 3
  | M_range rest => 19 * size rest + 2
  | M_wait => 1
  | M_return => 0
  end + sum_list_with weight (goroutines s).

(** What is on the channel and in the log of requests for one goroutine. *)
Definition traced (c : collector) (s : state) (g : goroutine) : Prop :=
  DeviceAddrs c !! g_name g = Some (g_addr g) /\
  unvisited c s !! g_name g = None /\
  match g_at g with
  | G_call =>
      attempts_of (g_name g) (attempts s) = [] /\
      emitted (g_name g) (ch s) = []
  | G_send pending =>
      exists answer,
        attempts_of (g_name g) (attempts s)
        = [ (g_name g, endpoint (g_addr g), answer) ] /\
        (emitted (g_name g) (ch s) ++ pending)%list
        = collectOne c (λ _, answer) (g_name g) (g_addr g)
  | G_exit =>
      exists answer,
        attempts_of (g_name g) (attempts s)
        = [ (g_name g, endpoint (g_addr g), answer) ] /\
        emitted (g_name g) (ch s)
        = collectOne c (λ _, answer) (g_name g) (g_addr g)
  end.

(** The invariant of a round. *)
Record round_inv (c : collector) (s : state) : Prop := {
  inv_names : NoDup (g_name <$> goroutines s);
  inv_traced : forall i g, goroutines s !! i = Some g -> traced c s g;
  inv_sub : forall name addr,
    unvisited c s !! name = Some addr -> DeviceAddrs c !! name = Some addr;
  inv_cover : forall name addr,
    DeviceAddrs c !! name = Some addr ->
    unvisited c s !! name = Some addr \/ name ∈ g_name <$> goroutines s;
  inv_count : length (goroutines s) + size (unvisited c s) = size (DeviceAddrs c);
  inv_wg :
    wg s = match pc s with
           | M_add => 0%Z
           | _ => Z.of_nat (size (unvisited c s) + sum_list_with live (goroutines s))
           end;
  inv_ret : pc s = M_return -> sum_list_with live (goroutines s) = 0;
  inv_ch :
    Forall (λ m, exists name, name ∈ g_name <$> goroutines s /\ labelValues m = [name])
      (ch s);
  inv_log :
    Forall (λ t : attempt, t.1.1 ∈ g_name <$> goroutines s) (attempts s);
  inv_attempts : length (attempts s) = sum_list_with requested (goroutines s)
}.

(** What a round that has returned leaves behind. *)
Definition returned (c : collector) (s : state) : Prop :=
  wg s = 0%Z /\
  length (goroutines s) = size (DeviceAddrs c) /\
  Forall (λ g, g_at g = G_exit) (goroutines s) /\
  length (attempts s) = size (DeviceAddrs c) /\
  Forall (λ m, exists name, is_Some (DeviceAddrs c !! name) /\ labelValues m = [name])
    (ch s) /\
  forall name addr,
    DeviceAddrs c !! name = Some addr ->
    exists answer,
      attempts_of name (attempts s) = [ (name, endpoint addr, answer) ] /\
      emitted name (ch s) = collectOne c (λ _, answer) name addr.

(** ** A registry of two devices and three ways the network answers *)

Module Sample.

Definition devices : gmap string string :=
  {[ "kitchen" := "10.0.0.2:80"; "attic" := "10.0.0.3:80" ]}.

Definition c : collector := newCollector {| Timeout := 2000000000 |} devices.

Definition reading : AirData.t := {|
  AirData.Timestamp := "2006-01-02T15:04:05.000Z";
  AirData.Score := 90;
  AirData.DewPoint := 0;
  AirData.Temp := 100;
  AirData.Humid := 40.5;
  AirData.AbsHumid := 7;
  AirData.Co2 := 400;
  AirData.Co2Est := 410;
  AirData.Co2EstBaseline := 3;
  AirData.Voc := 20;
  AirData.VocBaseline := 2;
  AirData.VocH2Raw := 25;
  AirData.VocEthanolRaw := 36;
  AirData.Pm25 := 2;
  AirData.Pm10Est := 3
|}.

Definition healthy : Get_t :=
  λ _, inl {| StatusCode := 200; Status := "200 OK"; Body := inl reading |}.



Definition down : Get_t :=
  λ _, inr (TransportError "connection refused").

(** A schedule of a round over [devices] in which the kitchen answers and the
    attic is down: the loop visits the attic first, and the sends of the
    kitchen are interleaved with the steps of the attic. *)
Definition schedule : list action :=
  ([ A_main ""; A_main "attic"; A_main "kitchen"; A_main "";
     A_go 1 healthy; A_go 0 down ]
   ++ replicate 8 (A_go 1 down)
   ++ [ A_go 0 down ]
   ++ replicate 9 (A_go 1 down)
   ++ [ A_main "" ])%list.

End Sample.

(** ** Occurrences of a substring *)

(** [substr] occurs in [s] at byte index [i]. *)
Definition occurs_at (substr s : string) (i : nat) : Prop :=
  i + String.length substr <= String.length s /\
  String.substring i (String.length substr) s = substr.

(** ** Metrics under another name *)


(** ** Accounts of a round *)

(** A bound on the sends a goroutine can still make. *)
Definition owed (g : goroutine) : nat :=
  match g_at g with
  | G_call => 16
  | G_send pending => length pending
  | G_exit => 0
  end.

(** A device of the registry with the answer that its request got. *)
Definition row : Type := string * string * (Response + io_error).

(** The request that the log holds for a row, and the batch of a row. *)
Definition row_attempt (r : row) : attempt := (r.1.1, endpoint r.1.2, r.2).

Definition row_batch (c : collector) (r : row) : list Metric :=
  collectOne c (λ _, r.2) r.1.1 r.1.2.

(** How an attempt ends, by the answer to its request: the device is dropped
    from the round, or counted as an error, or read. *)
Inductive verdict : Type := Dropped | Counted | Read.

#[global] Instance verdict_eq_dec : EqDecision verdict.
Proof. solve_decision. Defined.

Definition verdict_of (answer : Response + io_error) : verdict :=
  match answer with
  | inr _ => Dropped
  | inl resp =>
      if negb (StatusCode resp =? 200)%Z then Counted
      else match Body resp with
           | inr _ => Counted
           | inl _ => Read
           end
  end.

(** ** The entry point *)






(** The same round as [Sample.schedule] under another schedule: the loop
    visits the kitchen first and the attic finishes before the kitchen sends
    anything. *)
Definition schedule' : list action :=
  ([ A_main ""; A_main "kitchen"; A_main "attic"; A_main "";
     A_go 1 Sample.down; A_go 1 Sample.down; A_go 0 Sample.healthy ]
   ++ replicate 17 (A_go 0 Sample.down)
   ++ [ A_main "" ])%list.

(** * Properties *)

(** ** The delimiter search *)

Section delimiter.

Local Open Scope Z_scope.

Lemma append_empty (s : string) : "" ++ s = s.
Proof. reflexivity. Qed.

Lemma append_String c (s t : string) : String c s ++ t = String c (s ++ t).
Proof. reflexivity. Qed.

Lemma prefix_delim c rest :
  String.prefix "=" (String c rest) = bool_decide (c = "="%char).
Proof.
  change (String.prefix "=" (String c rest))
    with (if ascii_dec "=" c then String.prefix "" rest else false).
  destruct (ascii_dec "=" c) as [<-|Hne].
  - rewrite bool_decide_eq_true_2 by done. by destruct rest.
  - by rewrite bool_decide_eq_false_2 by congruence.
Qed.

Lemma LastIndex_range s :
  -1 <= Strings.LastIndex s "=" < Z.of_nat (String.length s) \/
  (s = "" /\ Strings.LastIndex s "=" = -1).
Proof.
  induction s as [|c rest IH].
  - right. split; reflexivity.
  - left. cbn [Strings.LastIndex String.length].
    destruct (0 <=? Strings.LastIndex rest "=") eqn:E.
    + apply Z.leb_le in E. destruct IH as [IH|[-> IH]]; [lia|].
      rewrite IH in E. lia.
    + destruct (String.prefix "=" (String c rest)); lia.
Qed.

Lemma LastIndex_absent s :
  has_delim s = false <-> Strings.LastIndex s "=" = -1.
Proof.
  induction s as [|c rest IH]; [done|].
  cbn [Strings.LastIndex has_delim]. rewrite prefix_delim.
  destruct (LastIndex_range rest) as [Hr|[_ Hr]].
  - destruct (0 <=? Strings.LastIndex rest "=") eqn:E.
    + apply Z.leb_le in E. case_decide.
      * split; [done|lia].
      * rewrite IH. split; lia.
    + apply Z.leb_gt in E. case_decide.
      * rewrite bool_decide_eq_true_2 by done. split; [done|lia].
      * rewrite bool_decide_eq_false_2 by done. rewrite IH. split; [done|lia].
  - rewrite Hr. cbn. case_decide.
    + rewrite bool_decide_eq_true_2 by done. split; [done|lia].
    + rewrite bool_decide_eq_false_2 by done. rewrite IH. done.
Qed.

Lemma LastIndex_present s :
  has_delim s = true <-> 0 <= Strings.LastIndex s "=".
Proof.
  destruct (has_delim s) eqn:E.
  - split; [intros _|done].
    destruct (LastIndex_range s) as [Hr|[_ Hr]].
    + destruct (decide (Strings.LastIndex s "=" = -1)) as [Hm|Hm]; [|lia].
      apply LastIndex_absent in Hm. congruence.
    + apply LastIndex_absent in Hr. congruence.
  - apply LastIndex_absent in E. rewrite E. split; [done|lia].
Qed.

(** The search finds the delimiter that no later delimiter follows. *)
Lemma LastIndex_token name addr :
  has_delim addr = false ->
  Strings.LastIndex (token (name, addr)) "=" = Z.of_nat (String.length name).
Proof.
  intros Haddr. unfold token. cbn [fst snd].
  induction name as [|c name IH].
  - rewrite append_empty, append_String, append_empty.
    cbn [Strings.LastIndex String.length].
    apply LastIndex_absent in Haddr. rewrite Haddr.
    change (0 <=? -1) with false. cbv iota.
    by rewrite prefix_delim.
  - rewrite append_String. cbn [Strings.LastIndex String.length].
    rewrite IH. rewrite (proj2 (Z.leb_le _ _)) by lia. lia.
Qed.

Lemma substring_all s : String.substring 0 (String.length s) s = s.
Proof. induction s as [|c s IH]; [done|]. cbn. by rewrite IH. Qed.

Lemma slice_to_token name rest :
  Strings.slice_to (name ++ rest) (Z.of_nat (String.length name)) = name.
Proof.
  unfold Strings.slice_to. rewrite Nat2Z.id.
  induction name as [|c name IH].
  - rewrite append_empty. by destruct rest.
  - rewrite append_String. cbn. by rewrite IH.
Qed.

Lemma slice_from_token name addr :
  Strings.slice_from (name ++ "=" ++ addr) (Z.of_nat (String.length name) + 1) = addr.
Proof.
  unfold Strings.slice_from.
  replace (Z.to_nat (Z.of_nat (String.length name) + 1)) with (S (String.length name)) by lia.
  induction name as [|c name IH].
  - rewrite append_empty, append_String, append_empty.
    cbn. rewrite Nat.sub_0_r. apply substring_all.
  - rewrite append_String. cbn [String.length String.substring].
    change (S (String.length (name ++ "=" ++ addr)) - S (S (String.length name)))%nat
      with (String.length (name ++ "=" ++ addr) - S (String.length name))%nat.
    exact IH.
Qed.

(** Every string in which '=' occurs is a token whose address has no '='. *)
Lemma has_delim_token s :
  has_delim s = true ->
  exists name addr, s = token (name, addr) /\ has_delim addr = false.
Proof.
  induction s as [|c rest IH]; [done|].
  cbn [has_delim]. intros H.
  destruct (has_delim rest) eqn:E.
  - destruct (IH eq_refl) as (name & addr & -> & Haddr).
    exists (String c name), addr. done.
  - case_decide; [|done]. subst c.
    exists "", rest. done.
Qed.

Lemma parse_step_token devices name addr :
  has_delim addr = false ->
  parse_step devices (token (name, addr)) = inl (<[name := addr]> devices).
Proof.
  intros Haddr. unfold parse_step.
  rewrite LastIndex_token by done.
  rewrite (proj2 (Z.ltb_ge _ _)) by lia.
  unfold token. cbn [fst snd].
  by rewrite slice_to_token, slice_from_token.
Qed.

Lemma parse_step_malformed devices arg :
  has_delim arg = false ->
  parse_step devices arg = inr (Errorf "expected key=value, got %q" [arg]).
Proof.
  intros Harg. unfold parse_step.
  apply LastIndex_absent in Harg. by rewrite Harg.
Qed.

End delimiter.

(** ** The registry as a sequence of bindings *)

Section registry.

Implicit Types (devices : gmap string string) (pairs : list (string * string)).
Implicit Types (args : list string) (name addr arg : string).

Lemma has_delim_of_token name addr : has_delim (token (name, addr)) = true.
Proof.
  unfold token. cbn [fst snd]. induction name as [|c name IH].
  - rewrite append_empty, append_String. cbn. by case_decide.
  - rewrite append_String. cbn [has_delim]. rewrite IH. by case_decide.
Qed.

Lemma token_inj name addr name' addr' :
  has_delim addr = false -> has_delim addr' = false ->
  token (name, addr) = token (name', addr') -> name = name' /\ addr = addr'.
Proof.
  intros Ha Ha' Heq.
  pose proof (LastIndex_token name addr Ha) as H1.
  pose proof (LastIndex_token name' addr' Ha') as H2.
  rewrite Heq, H2 in H1.
  pose proof (slice_to_token name ("=" ++ addr)) as S1.
  pose proof (slice_to_token name' ("=" ++ addr')) as S2.
  pose proof (slice_from_token name addr) as T1.
  pose proof (slice_from_token name' addr') as T2.
  unfold token in Heq. cbn [fst snd] in Heq.
  rewrite Heq, <- H1, S2 in S1. rewrite Heq, <- H1, T2 in T1. done.
Qed.

Lemma parse_loop_tokens devices pairs :
  Forall plain pairs ->
  parse_loop devices (token <$> pairs) = inl (bind_all devices pairs).
Proof.
  intros Hplain. revert devices.
  induction Hplain as [|[name addr] pairs Hp _ IH]; intros devices; [done|].
  cbn [fmap list_fmap parse_loop]. rewrite parse_step_token by exact Hp.
  apply IH.
Qed.

Lemma parse_loop_malformed devices pairs arg rest :
  Forall plain pairs -> has_delim arg = false ->
  parse_loop devices ((token <$> pairs) ++ arg :: rest)
  = inr (Errorf "expected key=value, got %q" [arg]).
Proof.
  intros Hplain Harg. revert devices.
  induction Hplain as [|[name addr] pairs Hp _ IH]; intros devices.
  - cbn [fmap list_fmap app parse_loop]. by rewrite parse_step_malformed.
  - cbn [fmap list_fmap app parse_loop]. rewrite parse_step_token by exact Hp.
    apply IH.
Qed.

(** A list of delimited tokens is a list of names and plain addresses. *)
Lemma delimited_tokens args :
  Forall (λ arg, has_delim arg = true) args ->
  exists pairs, args = token <$> pairs /\ Forall plain pairs.
Proof.
  induction 1 as [|arg args Harg _ (pairs & -> & Hplain)].
  - by exists [].
  - destruct (has_delim_token arg Harg) as (name & addr & -> & Haddr).
    exists ((name, addr) :: pairs). split; [done|]. by constructor.
Qed.

Lemma bind_all_snoc devices pairs p :
  bind_all devices (pairs ++ [p]) = <[p.1 := p.2]> (bind_all devices pairs).
Proof. unfold bind_all. by rewrite foldl_app. Qed.

Lemma bind_all_absent devices pairs name :
  name ∉ pairs.*1 -> bind_all devices pairs !! name = devices !! name.
Proof.
  revert devices. induction pairs as [|[n a] pairs IH]; intros devices Hn; [done|].
  rewrite fmap_cons, not_elem_of_cons in Hn. destruct Hn as [Hne Hn].
  cbn [bind_all foldl]. fold (bind_all (<[n:=a]> devices) pairs).
  rewrite IH by done. cbn [fst snd].
  by apply lookup_insert_ne.
Qed.

(** Last write wins. *)
Lemma bind_all_last devices before name addr after :
  name ∉ after.*1 ->
  bind_all devices (before ++ (name, addr) :: after) !! name = Some addr.
Proof.
  intros Hn. unfold bind_all. rewrite foldl_app. cbn [foldl fst snd].
  fold (bind_all (<[name:=addr]> (foldl (λ m p, <[p.1:=p.2]> m) devices before)) after).
  rewrite bind_all_absent by done. apply lookup_insert_eq.
Qed.

Lemma bind_all_size devices pairs :
  NoDup pairs.*1 -> (forall name, name ∈ pairs.*1 -> devices !! name = None) ->
  size (bind_all devices pairs) = (size devices + length pairs)%nat.
Proof.
  revert devices. induction pairs as [|[n a] pairs IH]; intros devices Hnd Hfresh.
  - cbn. lia.
  - rewrite fmap_cons in Hnd, Hfresh. cbn [fst] in Hnd, Hfresh.
    apply NoDup_cons in Hnd as [Hn Hnd].
    cbn [bind_all foldl fst snd]. fold (bind_all (<[n:=a]> devices) pairs).
    rewrite IH; [|done|].
    + rewrite map_size_insert_None by (apply Hfresh; left). cbn. lia.
    + intros name Hin. rewrite lookup_insert_ne by (intros ->; done).
      apply Hfresh. by right.
Qed.

End registry.

(** ** parseDevices *)

Section parse.

Implicit Types (devices : gmap string string) (pairs : list (string * string)).
Implicit Types (args : list string) (name addr arg : string).

(** Tokens with distinct names come from pairs with distinct names. *)
Lemma distinct_names pairs :
  Forall plain pairs ->
  (forall i j name addr addr',
      (token <$> pairs) !! i = Some (token (name, addr)) ->
      (token <$> pairs) !! j = Some (token (name, addr')) ->
      has_delim addr = false -> has_delim addr' = false -> i = j) ->
  NoDup pairs.*1.
Proof.
  intros Hplain Huniq. apply NoDup_alt. intros i j name Hi Hj.
  rewrite list_lookup_fmap in Hi, Hj.
  destruct (pairs !! i) as [[n a]|] eqn:Ei; [|done].
  destruct (pairs !! j) as [[n' a']|] eqn:Ej; [|done].
  cbn in Hi, Hj. injection Hi as ->. injection Hj as ->.
  apply (Huniq i j name a a').
  - by rewrite list_lookup_fmap, Ei.
  - by rewrite list_lookup_fmap, Ej.
  - exact (proj1 (Forall_lookup _ _) Hplain i _ Ei).
  - exact (proj1 (Forall_lookup _ _) Hplain j _ Ej).
Qed.

Lemma token_in_pairs pairs name addr :
  Forall plain pairs -> has_delim addr = false ->
  token (name, addr) ∈ token <$> pairs -> (name, addr) ∈ pairs.
Proof.
  intros Hplain Haddr Hin.
  apply list_elem_of_fmap in Hin as ([n a] & Heq & Hin).
  pose proof (proj1 (Forall_forall _ _) Hplain _ Hin) as Ha.
  destruct (token_inj name addr n a Haddr Ha Heq) as [-> ->]. done.
Qed.

Lemma bind_all_unique pairs name addr :
  NoDup pairs.*1 -> (name, addr) ∈ pairs ->
  bind_all ∅ pairs !! name = Some addr.
Proof.
  intros Hnd Hin.
  apply list_elem_of_split in Hin as (before & after & ->).
  apply bind_all_last.
  rewrite fmap_app, fmap_cons in Hnd. cbn [fst] in Hnd.
  apply NoDup_app in Hnd as (_ & _ & Hnd).
  by apply NoDup_cons in Hnd as [Hn _].
Qed.

End parse.

Section parse_claims.

Implicit Types (devices : gmap string string) (pairs : list (string * string)).
Implicit Types (args : list string) (name addr arg : string).

Lemma first_undelimited args :
  (exists arg, arg ∈ args /\ has_delim arg = false) ->
  exists before arg after,
    args = (before ++ arg :: after)%list /\
    Forall (λ a, has_delim a = true) before /\ has_delim arg = false.
Proof.
  induction args as [|a args IH]; intros (arg & Hin & Harg).
  - by apply elem_of_nil in Hin.
  - destruct (has_delim a) eqn:Ea.
    + apply elem_of_cons in Hin as [->|Hin]; [congruence|].
      destruct IH as (before & arg' & after & -> & Hb & Harg'); [by exists arg|].
      exists (a :: before), arg', after. split_and!; [done| |done].
      by constructor.
    + exists [], a, args. by split_and!.
Qed.

(** C6: for every list of tokens that each contain a delimiter and whose
    names are pairwise distinct, [parseDevices] returns a map with as many
    entries as there are tokens, and a token that reads [name=addr] with no
    '=' in [addr] (the split at the last '=') binds [name] to [addr]; the
    token "a=b=c" gives the name "a=b" and the address "c". *)
Theorem parseDevices_unique_names :
  (forall args,
      Forall (λ arg, has_delim arg = true) args ->
      (forall i j name addr addr',
          args !! i = Some (token (name, addr)) ->
          args !! j = Some (token (name, addr')) ->
          has_delim addr = false -> has_delim addr' = false -> i = j) ->
      exists devices,
        parseDevices args = inl devices /\
        size devices = length args /\
        forall name addr,
          token (name, addr) ∈ args -> has_delim addr = false ->
          devices !! name = Some addr) /\
  parseDevices ["a=b=c"] = inl {[ "a=b" := "c" ]}.
Proof.
  split.
  - intros args Hdelim Huniq.
    destruct (delimited_tokens args Hdelim) as (pairs & -> & Hplain).
    pose proof (distinct_names pairs Hplain Huniq) as Hnd.
    exists (bind_all ∅ pairs). split_and!.
    + by apply parse_loop_tokens.
    + rewrite bind_all_size, map_size_empty, length_fmap; [done..|].
      intros. apply lookup_empty.
    + intros name addr Hin Haddr.
      apply bind_all_unique; [done|]. by apply token_in_pairs.
  - change "a=b=c" with (token ("a=b", "c")).
    unfold parseDevices. rewrite (parse_loop_tokens ∅ [("a=b", "c")]).
    + cbn. by rewrite insert_empty.
    + by repeat constructor.
Qed.

Lemma parseDevices_unique_names_witness :
  exists devices,
    parseDevices ["kitchen=10.0.0.2:80"; "a=b=c"] = inl devices /\
    size devices = 2%nat /\ devices !! "a=b" = Some "c".
Proof.
  destruct (proj1 parseDevices_unique_names ["kitchen=10.0.0.2:80"; "a=b=c"])
    as (devices & Hparse & Hsize & Hlook).
  - repeat constructor.
  - intros [|[|[|i]]] [|[|[|j]]] name addr addr' Hi Hj Ha Ha'; try done;
      cbn in Hi, Hj; injection Hi as Hi; injection Hj as Hj.
    + change "kitchen=10.0.0.2:80" with (token ("kitchen", "10.0.0.2:80")) in Hi.
      change "a=b=c" with (token ("a=b", "c")) in Hj.
      apply token_inj in Hi as [<- _]; [|done..].
      by apply token_inj in Hj as [? _].
    + change "kitchen=10.0.0.2:80" with (token ("kitchen", "10.0.0.2:80")) in Hj.
      change "a=b=c" with (token ("a=b", "c")) in Hi.
      apply token_inj in Hi as [<- _]; [|done..].
      by apply token_inj in Hj as [? _].
  - exists devices. split_and!; [done..|].
    apply Hlook; [|done].
    change "a=b=c" with (token ("a=b", "c")). set_solver.
Defined.

(** C7: for every list that contains a token with no '=', [parseDevices]
    returns the error built from the first such token and returns no map. *)
Theorem parseDevices_malformed args :
  (exists arg, arg ∈ args /\ has_delim arg = false) ->
  exists before arg after,
    args = (before ++ arg :: after)%list /\
    Forall (λ a, has_delim a = true) before /\
    has_delim arg = false /\
    parseDevices args = inr (Errorf "expected key=value, got %q" [arg]) /\
    forall devices, parseDevices args <> inl devices.
Proof.
  intros Hex.
  destruct (first_undelimited args Hex) as (before & arg & after & -> & Hb & Harg).
  exists before, arg, after.
  destruct (delimited_tokens before Hb) as (pairs & -> & Hplain).
  assert (parseDevices ((token <$> pairs) ++ arg :: after)
          = inr (Errorf "expected key=value, got %q" [arg])) as Hparse
    by by apply parse_loop_malformed.
  split_and!; [done..|].
  intros devices. by rewrite Hparse.
Qed.

Lemma parseDevices_malformed_witness :
  exists before arg after,
    ["kitchen=10.0.0.2:80"; "attic"; "cellar"] = (before ++ arg :: after)%list /\
    Forall (λ a, has_delim a = true) before /\
    has_delim arg = false /\
    parseDevices ["kitchen=10.0.0.2:80"; "attic"; "cellar"]
    = inr (Errorf "expected key=value, got %q" [arg]) /\
    forall devices,
      parseDevices ["kitchen=10.0.0.2:80"; "attic"; "cellar"] <> inl devices.
Proof.
  apply (parseDevices_malformed ["kitchen=10.0.0.2:80"; "attic"; "cellar"]).
  exists "cellar". split; [|reflexivity].
  apply list_elem_of_In. simpl. tauto.
Defined.

(** C8: for every list of tokens that each contain a delimiter,
    [parseDevices] returns a map, and each name is bound to the address of
    the last token that carries the name. *)
Theorem parseDevices_last_wins args :
  Forall (λ arg, has_delim arg = true) args ->
  exists devices,
    parseDevices args = inl devices /\
    forall before name addr after,
      args = (before ++ token (name, addr) :: after)%list ->
      has_delim addr = false ->
      (forall addr', has_delim addr' = false -> token (name, addr') ∉ after) ->
      devices !! name = Some addr.
Proof.
  intros Hdelim.
  destruct (delimited_tokens args Hdelim) as (pairs & -> & Hplain).
  exists (bind_all ∅ pairs). split; [by apply parse_loop_tokens|].
  intros before name addr after Heq Haddr Hlast.
  apply fmap_app_inv in Heq as (pb & pa' & -> & Heq & ->).
  symmetry in Heq. apply fmap_cons_inv in Heq as ([n a] & pa & Ht & -> & ->).
  apply Forall_app in Hplain as [_ Hplain].
  apply Forall_cons in Hplain as [Hp Hpa].
  apply token_inj in Ht as [? ?]; [|done..]. subst n a.
  apply bind_all_last. intros Hin.
  apply list_elem_of_fmap in Hin as ([n' a'] & Hn & Hin). cbn in Hn. subst n'.
  apply (Hlast a').
  - exact (proj1 (Forall_forall _ _) Hpa _ Hin).
  - apply list_elem_of_fmap. by exists (name, a').
Qed.

Lemma parseDevices_last_wins_witness :
  exists devices,
    parseDevices ["a=1"; "b=2"; "a=3"] = inl devices /\ devices !! "a" = Some "3".
Proof.
  destruct (parseDevices_last_wins ["a=1"; "b=2"; "a=3"]) as (devices & Hparse & Hlast).
  - repeat constructor.
  - exists devices. split; [done|].
    apply (Hlast ["a=1"; "b=2"] "a" "3" []); [done..|].
    intros addr' _. apply not_elem_of_nil.
Defined.

(** C10: a token whose only '=' is its first byte binds the empty name to
    the rest, and a token that ends in '=' binds what is before that '=' to
    the empty address; neither is rejected. *)
Theorem parseDevices_empty_sides :
  parseDevices ["=addr"] = inl {[ "" := "addr" ]} /\
  parseDevices ["a="] = inl {[ "a" := "" ]} /\
  (forall addr, has_delim addr = false ->
                parseDevices ["=" ++ addr] = inl {[ "" := addr ]}) /\
  (forall name, parseDevices [name ++ "="] = inl {[ name := "" ]}).
Proof.
  assert (forall name addr, has_delim addr = false ->
            parseDevices [token (name, addr)] = inl {[ name := addr ]}) as Hone.
  { intros name addr Haddr. unfold parseDevices.
    rewrite (parse_loop_tokens ∅ [(name, addr)]) by by repeat constructor.
    cbn. by rewrite insert_empty. }
  split_and!.
  - by apply (Hone "" "addr").
  - by apply (Hone "a" "").
  - intros addr Haddr. by apply (Hone "" addr).
  - intros name. by apply (Hone name "").
Qed.

Lemma parseDevices_empty_sides_witness :
  parseDevices ["=" ++ "10.0.0.2:80"] = inl {[ "" := "10.0.0.2:80" ]}.
Proof.
  apply (proj1 (proj2 (proj2 parseDevices_empty_sides)) "10.0.0.2:80").
  reflexivity.
Defined.

End parse_claims.

(** ** collectOne *)

Section collectOne_claims.

Implicit Types (c : collector) (Get : Get_t) (name addr : string).

Lemma collectOne_dropped c Get name addr err :
  Get (endpoint addr) = inr err -> collectOne c Get name addr = [].
Proof. intros HGet. unfold collectOne. by rewrite HGet. Qed.

Lemma collectOne_counted c Get name addr resp :
  Get (endpoint addr) = inl resp ->
  StatusCode resp <> 200%Z \/ (exists err, Body resp = inr err) ->
  collectOne c Get name addr = [ ConstMetric (Errors c) CounterValue 1 [name] ].
Proof.
  intros HGet Hfail. unfold collectOne. rewrite HGet.
  destruct (StatusCode resp =? 200)%Z eqn:E; [|done].
  apply Z.eqb_eq in E. destruct Hfail as [Hne|[err Herr]]; [done|].
  by rewrite Herr.
Qed.

(** C3: when the request fails, the attempt sends nothing on the channel:
    no measurement and no error metric. *)
Theorem collectOne_transport_failure c Get name addr err :
  Get (endpoint addr) = inr err ->
  collectOne c Get name addr = [].
Proof. apply collectOne_dropped. Qed.

Lemma collectOne_transport_failure_witness :
  collectOne Sample.c Sample.down "attic" "10.0.0.3:80" = [].
Proof.
  apply (collectOne_transport_failure Sample.c Sample.down "attic" "10.0.0.3:80"
           (TransportError "connection refused")).
  reflexivity.
Defined.



(** The batch of a successful attempt. *)
Lemma collectOne_ok c Get name addr resp d :
  Get (endpoint addr) = inl resp -> StatusCode resp = 200%Z -> Body resp = inl d ->
  collectOne c Get name addr =
  [ ConstMetric (Score c) GaugeValue (float64_of_int (AirData.Score d)) [name];
    ConstMetric (DewPointC c) GaugeValue (AirData.DewPoint d) [name];
    ConstMetric (DewPointF c) GaugeValue (celsiusToFahrenheit (AirData.DewPoint d)) [name];
    ConstMetric (TempC c) GaugeValue (AirData.Temp d) [name];
    ConstMetric (TempF c) GaugeValue (celsiusToFahrenheit (AirData.Temp d)) [name];
    ConstMetric (Humid c) GaugeValue (AirData.Humid d) [name];
    ConstMetric (AbsHumid c) GaugeValue (AirData.AbsHumid d) [name];
    ConstMetric (Co2 c) GaugeValue (float64_of_int (AirData.Co2 d)) [name];
    ConstMetric (Co2Est c) GaugeValue (float64_of_int (AirData.Co2Est d)) [name];
    ConstMetric (Co2EstBaseline c) GaugeValue (float64_of_int (AirData.Co2EstBaseline d)) [name];
    ConstMetric (Voc c) GaugeValue (float64_of_int (AirData.Voc d)) [name];
    ConstMetric (VocBaseline c) GaugeValue (float64_of_int (AirData.VocBaseline d)) [name];
    ConstMetric (VocEthanolRaw c) GaugeValue (float64_of_int (AirData.VocEthanolRaw d)) [name];
    ConstMetric (VocH2Raw c) GaugeValue (float64_of_int (AirData.VocH2Raw d)) [name];
    ConstMetric (Pm25 c) GaugeValue (float64_of_int (AirData.Pm25 d)) [name];
    ConstMetric (Pm10Est c) GaugeValue (float64_of_int (AirData.Pm10Est d)) [name] ].
Proof.
  intros HGet Hstatus Hbody. unfold collectOne.
  by rewrite HGet, Hstatus, Hbody.
Qed.

(** An attempt has one of three batches. *)
Lemma collectOne_cases c Get name addr :
  collectOne c Get name addr = [] \/
  collectOne c Get name addr = [ ConstMetric (Errors c) CounterValue 1 [name] ] \/
  exists resp d,
    Get (endpoint addr) = inl resp /\ StatusCode resp = 200%Z /\ Body resp = inl d.
Proof.
  destruct (Get (endpoint addr)) as [resp|err] eqn:HGet.
  - destruct (decide (StatusCode resp = 200%Z)) as [Hs|Hs].
    + destruct (Body resp) as [d|err] eqn:Hb.
      * right; right. by exists resp, d.
      * right; left. eapply collectOne_counted; [done|]. right. by exists err.
    + right; left. eapply collectOne_counted; [done|]. by left.
  - left. by eapply collectOne_dropped.
Qed.

(** The batch depends on the network only through the answer to the one
    request of the attempt. *)
Lemma collectOne_answer c Get name addr :
  collectOne c Get name addr = collectOne c (λ _, Get (endpoint addr)) name addr.
Proof. reflexivity. Qed.

Lemma collectOne_labels c Get name addr :
  Forall (λ m, labelValues m = [name]) (collectOne c Get name addr).
Proof.
  destruct (collectOne_cases c Get name addr) as [->|[->|(resp & d & H1 & H2 & H3)]].
  - constructor.
  - by repeat constructor.
  - rewrite (collectOne_ok _ _ _ _ _ _ H1 H2 H3). by repeat constructor.
Qed.

Lemma collectOne_length c Get name addr :
  length (collectOne c Get name addr) <= 16.
Proof.
  destruct (collectOne_cases c Get name addr) as [->|[->|(resp & d & H1 & H2 & H3)]].
  - cbn. lia.
  - cbn. lia.
  - rewrite (collectOne_ok _ _ _ _ _ _ H1 H2 H3). cbn. lia.
Qed.




End collectOne_claims.

(** ** The Fahrenheit gauges *)

Section fahrenheit.

Local Open Scope float_scope.



End fahrenheit.

(** ** The catalog *)

Section catalog.

Implicit Types (c : collector) (Get : Get_t) (name addr : string).



End catalog.

(** ** One round of collection *)

Section lists.

Context {A : Type}.
Implicit Types (l : list A) (f : A -> nat).

Lemma sum_list_with_insert f l i x y :
  l !! i = Some x ->
  sum_list_with f (<[i:=y]> l) + f x = sum_list_with f l + f y.
Proof.
  revert i. induction l as [|z l IH]; intros [|i] Hi; try done.
  - injection Hi as ->. simpl. lia.
  - change (l !! i = Some x) in Hi.
    change (<[S i:=y]> (z :: l)) with (z :: <[i:=y]> l).
    simpl. specialize (IH i Hi). lia.
Qed.


End lists.

Section traces.

Local Open Scope list_scope.
Implicit Types (name : string) (out : list Metric) (log : list attempt).

Lemma emitted_snoc_same name out m :
  labelValues m = [name] -> emitted name (out ++ [m]) = emitted name out ++ [m].
Proof.
  intros Hm. unfold emitted. rewrite filter_app.
  by rewrite (filter_cons_True _ m []) by done.
Qed.

Lemma emitted_snoc_other name out m :
  labelValues m <> [name] -> emitted name (out ++ [m]) = emitted name out.
Proof.
  intros Hm. unfold emitted. rewrite filter_app.
  rewrite (filter_cons_False _ m []) by done. by rewrite filter_nil, app_nil_r.
Qed.

Lemma attempts_of_snoc_same name log (t : attempt) :
  t.1.1 = name -> attempts_of name (log ++ [t]) = attempts_of name log ++ [t].
Proof.
  intros Ht. unfold attempts_of. rewrite filter_app.
  by rewrite (filter_cons_True _ t []) by done.
Qed.

Lemma attempts_of_snoc_other name log (t : attempt) :
  t.1.1 <> name -> attempts_of name (log ++ [t]) = attempts_of name log.
Proof.
  intros Ht. unfold attempts_of. rewrite filter_app.
  rewrite (filter_cons_False _ t []) by done. by rewrite filter_nil, app_nil_r.
Qed.

Lemma emitted_stranger name (names : list string) out :
  Forall (λ m, exists n, n ∈ names /\ labelValues m = [n]) out ->
  name ∉ names -> emitted name out = [].
Proof.
  intros Hall Hname. unfold emitted.
  induction Hall as [|m out (n & Hn & Hm) _ IH]; [done|].
  rewrite filter_cons_False; [done|].
  rewrite Hm. intros [= ->]. done.
Qed.

Lemma attempts_of_stranger name (names : list string) log :
  Forall (λ t : attempt, t.1.1 ∈ names) log ->
  name ∉ names -> attempts_of name log = [].
Proof.
  intros Hall Hname. unfold attempts_of.
  induction Hall as [|t log Ht _ IH]; [done|].
  rewrite filter_cons_False; [done|]. by intros <-.
Qed.

End traces.

Section round.

Local Open Scope list_scope.

Implicit Types (c : collector) (s : state) (a : action) (g : goroutine).

Lemma size_delete_visited (rest : gmap string string) pick addr :
  rest !! pick = Some addr -> S (size (delete pick rest)) = size rest.
Proof.
  intros Hpick. rewrite map_size_delete_Some by done.
  assert (size rest <> 0) by (apply map_size_ne_0_lookup_2 with pick; done).
  lia.
Qed.

(** Every step uses up fuel: no schedule runs for ever. *)
Lemma step_fuel c s a s' : step c s a = Some s' -> fuel c s' < fuel c s.
Proof.
  destruct a as [pick|i Get]; unfold step, step_main, step_go, fuel.
  - destruct (pc s) as [|rest| |] eqn:Epc; [| | |done].
    + intros [= <-]. cbn. lia.
    + case_decide.
      * intros [= <-]. cbn. lia.
      * destruct (rest !! pick) as [addr|] eqn:Epick; [|done].
        intros [= <-]. cbn [pc goroutines]. rewrite sum_list_with_app. cbn.
        pose proof (size_delete_visited rest pick addr Epick). lia.
    + case_decide; [|done]. intros [= <-]. cbn. lia.
  - destruct (goroutines s !! i) as [g|] eqn:Eg; [|done].
    destruct (g_at g) as [|[|m pending]|] eqn:Eat; [| | |done];
      intros [= <-]; cbn [pc goroutines];
      match goal with
      | |- context [<[i:=?g']> (goroutines s)] =>
          pose proof (sum_list_with_insert weight (goroutines s) i g g' Eg) as Hsum;
          assert (weight g' = weight g' /\ weight g = weight g) as [Hw' Hw] by done;
          unfold weight in Hw' at 2, Hw at 2; cbn [g_at] in Hw'; rewrite Eat in Hw;
          rewrite Hw, Hw' in Hsum
      end.
    + pose proof (collectOne_length c Get (g_name g) (g_addr g)). lia.
    + lia.
    + cbn [length] in Hsum. lia.
Qed.

Lemma names_at (gs : list goroutine) i g p :
  gs !! i = Some g ->
  g_name <$> <[i := {| g_name := g_name g; g_addr := g_addr g; g_at := p |}]> gs
  = g_name <$> gs.
Proof.
  intros Hg. rewrite list_fmap_insert. cbn [g_name].
  apply list_insert_id. by rewrite list_lookup_fmap, Hg.
Qed.

Lemma traced_same c s s' g :
  unvisited c s' !! g_name g = None ->
  attempts s' = attempts s -> ch s' = ch s ->
  traced c s g -> traced c s' g.
Proof.
  unfold traced. intros Hu -> -> (Hd & _ & Hat). done.
Qed.

Lemma round_inv_init c : round_inv c init.
Proof.
  constructor; cbn; try done.
  - constructor.
  - intros name addr Hd. by left.
Qed.

Lemma step_main_inv c s pick s' :
  round_inv c s -> step_main c s pick = Some s' -> round_inv c s'.
Proof.
  intros [Hn Ht Hs Hc Hk Hw Hret Hch Hl Ha]. unfold step_main, unvisited in *.
  destruct (pc s) as [|rest| |] eqn:Epc; [| | |done].
  - (* wg.Add *)
    intros [= <-].
    assert (goroutines s = []) as Hnil by (apply nil_length_inv; lia).
    constructor; unfold unvisited; cbn [pc wg goroutines ch attempts]; try done.
    + intros i g Hg. eapply traced_same; [| | |by eapply Ht]; try done.
      unfold unvisited. cbn [pc]. specialize (Ht i g Hg) as (_ & Hu & _).
      unfold unvisited in Hu. by rewrite Epc in Hu.
    + rewrite Hw, Hnil. cbn. lia.
  - case_decide as Hrest.
    + (* the loop ends *)
      intros [= <-]. subst rest.
      constructor; unfold unvisited; cbn [pc wg goroutines ch attempts]; try done.
      intros i g Hg. eapply traced_same; [| | |by eapply Ht]; done.
    + (* the loop starts a goroutine *)
      destruct (rest !! pick) as [addr|] eqn:Epick; [|done].
      intros [= <-].
      assert (pick ∉ g_name <$> goroutines s) as Hfresh.
      { intros Hin. apply list_elem_of_fmap in Hin as (g & -> & Hin).
        apply list_elem_of_lookup in Hin as (i & Hg).
        specialize (Ht i g Hg) as (_ & Hu & _).
        unfold unvisited in Hu. rewrite Epc in Hu. congruence. }
      pose proof (size_delete_visited rest pick addr Epick) as Hsize.
      constructor; unfold unvisited; cbn [pc wg goroutines ch attempts].
      * rewrite fmap_app. apply NoDup_app. split_and!; [done| |].
        -- intros name Hin Hin'. apply list_elem_of_singleton in Hin'. by subst name.
        -- apply NoDup_singleton.
      * intros i g Hg. apply lookup_app_Some in Hg as [Hg|[_ Hg]].
        -- specialize (Ht i g Hg) as Htr. eapply traced_same; [| | |exact Htr]; try done.
           unfold unvisited. cbn [pc]. apply lookup_delete_None. right.
           destruct Htr as (_ & Hu & _). unfold unvisited in Hu. by rewrite Epc in Hu.
        -- apply list_lookup_singleton_Some in Hg as [_ <-].
           unfold traced, unvisited. cbn [pc g_name g_addr g_at attempts ch].
           split_and!.
           ++ by apply Hs.
           ++ apply lookup_delete_eq.
           ++ by eapply attempts_of_stranger.
           ++ by eapply emitted_stranger.
      * intros name addr' Hlook. apply lookup_delete_Some in Hlook as [_ Hlook].
        by apply Hs.
      * intros name addr' Hd. destruct (decide (name = pick)) as [->|Hne].
        -- right. rewrite fmap_app. apply elem_of_app. right.
           by apply list_elem_of_singleton.
        -- destruct (Hc name addr' Hd) as [Hr|Hin].
           ++ left. by apply lookup_delete_Some.
           ++ right. rewrite fmap_app. apply elem_of_app. by left.
      * rewrite length_app. cbn. lia.
      * rewrite Hw, sum_list_with_app. cbn. lia.
      * done.
      * eapply Forall_impl; [exact Hch|]. intros m (name & Hin & Hm).
        exists name. split; [|done]. rewrite fmap_app. apply elem_of_app. by left.
      * eapply Forall_impl; [exact Hl|]. intros t Hin.
        rewrite fmap_app. apply elem_of_app. by left.
      * rewrite sum_list_with_app. cbn. lia.
  - (* wg.Wait returns *)
    case_decide; [|done]. intros [= <-].
    constructor; unfold unvisited; cbn [pc wg goroutines ch attempts]; try done.
    + intros i g Hg. eapply traced_same; [| | |by eapply Ht]; done.
    + intros _. rewrite map_size_empty in Hw. lia.
Qed.

Lemma traced_eq c s s' g :
  unvisited c s' = unvisited c s ->
  attempts_of (g_name g) (attempts s') = attempts_of (g_name g) (attempts s) ->
  emitted (g_name g) (ch s') = emitted (g_name g) (ch s) ->
  traced c s g -> traced c s' g.
Proof. unfold traced. intros -> -> ->. done. Qed.

(** Two goroutines of a round have different names. *)
Lemma other_name (gs : list goroutine) i j g g' :
  NoDup (g_name <$> gs) -> gs !! i = Some g -> gs !! j = Some g' -> i <> j ->
  g_name g' <> g_name g.
Proof.
  intros Hnd Hi Hj Hne Heq. apply Hne.
  apply (NoDup_lookup (g_name <$> gs) i j (g_name g) Hnd).
  - by rewrite list_lookup_fmap, Hi.
  - rewrite list_lookup_fmap, Hj. cbn. by rewrite Heq.
Qed.

Lemma live_positive (gs : list goroutine) i g :
  gs !! i = Some g -> g_at g <> G_exit -> 0 < sum_list_with live gs.
Proof.
  intros Hg Hat.
  pose proof (sum_list_with_in g live gs (list_elem_of_lookup_2 _ _ _ Hg)) as Hle.
  unfold live in Hle at 1. destruct (g_at g); [lia..|done].
Qed.

Section counters.

Context (gs : list goroutine) (i : nat) (g : goroutine) (p : g_pc).
Context (Hg : gs !! i = Some g).

Let gs' := <[i := {| g_name := g_name g; g_addr := g_addr g; g_at := p |}]> gs.

Lemma live_stays :
  g_at g <> G_exit -> p <> G_exit ->
  sum_list_with live gs' = sum_list_with live gs.
Proof.
  intros Hat Hp. pose proof (sum_list_with_insert live gs i g
                {| g_name := g_name g; g_addr := g_addr g; g_at := p |} Hg) as Hsum.
  assert (live g = 1) as Hone by (unfold live; by destruct (g_at g)).
  assert (live {| g_name := g_name g; g_addr := g_addr g; g_at := p |} = 1) as Hone'
    by (unfold live; cbn; by destruct p).
  subst gs'. rewrite Hone, Hone' in Hsum. lia.
Qed.

Lemma live_exits :
  g_at g <> G_exit -> p = G_exit ->
  S (sum_list_with live gs') = sum_list_with live gs.
Proof.
  intros Hat Hp. pose proof (sum_list_with_insert live gs i g
                {| g_name := g_name g; g_addr := g_addr g; g_at := p |} Hg) as Hsum.
  assert (live g = 1) as Hone by (unfold live; by destruct (g_at g)).
  assert (live {| g_name := g_name g; g_addr := g_addr g; g_at := p |} = 0) as Hone'
    by (unfold live; cbn; by rewrite Hp).
  subst gs'. rewrite Hone, Hone' in Hsum. lia.
Qed.

Lemma requested_stays :
  g_at g <> G_call -> p <> G_call ->
  sum_list_with requested gs' = sum_list_with requested gs.
Proof.
  intros Hat Hp. pose proof (sum_list_with_insert requested gs i g
                {| g_name := g_name g; g_addr := g_addr g; g_at := p |} Hg) as Hsum.
  assert (requested g = 1) as Hone by (unfold requested; by destruct (g_at g)).
  assert (requested {| g_name := g_name g; g_addr := g_addr g; g_at := p |} = 1)
    as Hone' by (unfold requested; cbn; by destruct p).
  subst gs'. rewrite Hone, Hone' in Hsum. lia.
Qed.

Lemma requested_call :
  g_at g = G_call -> p <> G_call ->
  sum_list_with requested gs' = S (sum_list_with requested gs).
Proof.
  intros Hat Hp. pose proof (sum_list_with_insert requested gs i g
                {| g_name := g_name g; g_addr := g_addr g; g_at := p |} Hg) as Hsum.
  assert (requested g = 0) as Hone by (unfold requested; by rewrite Hat).
  assert (requested {| g_name := g_name g; g_addr := g_addr g; g_at := p |} = 1)
    as Hone' by (unfold requested; cbn; by destruct p).
  subst gs'. rewrite Hone, Hone' in Hsum. lia.
Qed.

End counters.

Lemma step_go_inv c s i Get s' :
  round_inv c s -> step_go c s i Get = Some s' -> round_inv c s'.
Proof.
  intros [Hn Ht Hs Hc Hk Hw Hret Hch Hl Ha]. unfold step_go.
  destruct (goroutines s !! i) as [g|] eqn:Eg; [|done].
  pose proof (Ht i g Eg) as (Hd & Hu & Hg).
  assert (g_name g ∈ g_name <$> goroutines s) as Hin.
  { apply list_elem_of_fmap. exists g. split; [done|]. by eapply list_elem_of_lookup_2. }
  assert (pc s <> M_add) as Hpc.
  { intros Epc. unfold unvisited in Hk. rewrite Epc in Hk.
    assert (goroutines s = []) as Hnil by (apply nil_length_inv; lia).
    by rewrite Hnil in Eg. }
  destruct (g_at g) as [|[|m pending]|] eqn:Eat; [| | |done]; intros [= <-].
  - (* the request *)
    destruct Hg as [Hat Hem].
    pose proof (requested_call _ i g (G_send (collectOne c Get (g_name g) (g_addr g)))
                  Eg Eat) as Hreq.
    pose proof (live_stays _ i g (G_send (collectOne c Get (g_name g) (g_addr g)))
                  Eg) as Hlive.
    rewrite Eat in Hlive. specialize (Hreq ltac:(done)). specialize (Hlive ltac:(done) ltac:(done)).
    constructor; cbn [pc wg goroutines ch attempts];
      rewrite ?names_at, ?length_insert by done; try done.
    + intros j gj Hj.
      apply list_lookup_insert_Some in Hj as [(-> & <- & _)|(Hne & Hj)].
      * unfold traced. cbn [g_name g_addr g_at attempts ch].
        split_and!; [done|exact Hu|].
        exists (Get (endpoint (g_addr g))). split.
        -- rewrite attempts_of_snoc_same by done. by rewrite Hat.
        -- by rewrite Hem.
      * apply (traced_eq c s); [reflexivity| |reflexivity|by eapply Ht].
        cbn [attempts]. apply attempts_of_snoc_other. cbn.
        intros Heq. by eapply (other_name (goroutines s) j i gj g).
    + match goal with
      | |- context [unvisited c ?x] => change (unvisited c x) with (unvisited c s)
      end.
      rewrite Hw. destruct (pc s); [done|lia..].
    + intros Epc. specialize (Hret Epc).
      pose proof (live_positive (goroutines s) i g Eg). rewrite Eat in *. lia.
    + apply Forall_app. split; [done|]. by repeat constructor.
    + rewrite length_app. cbn. lia.
  - (* wg.Done *)
    destruct Hg as (answer & Hat & Hem). rewrite app_nil_r in Hem.
    pose proof (requested_stays _ i g G_exit Eg) as Hreq.
    pose proof (live_exits _ i g G_exit Eg) as Hlive.
    rewrite Eat in Hreq, Hlive.
    specialize (Hreq ltac:(done) ltac:(done)). specialize (Hlive ltac:(done) ltac:(done)).
    constructor; cbn [pc wg goroutines ch attempts];
      rewrite ?names_at, ?length_insert by done; try done.
    + intros j gj Hj.
      apply list_lookup_insert_Some in Hj as [(-> & <- & _)|(Hne & Hj)].
      * unfold traced. cbn [g_name g_addr g_at attempts ch].
        split_and!; [done|exact Hu|]. by exists answer.
      * apply (traced_eq c s); [reflexivity..|by eapply Ht].
    + match goal with
      | |- context [unvisited c ?x] => change (unvisited c x) with (unvisited c s)
      end.
      rewrite Hw. destruct (pc s); [done|lia..].
    + intros Epc. specialize (Hret Epc).
      pose proof (live_positive (goroutines s) i g Eg). rewrite Eat in *. lia.
    + lia.
  - (* a send *)
    destruct Hg as (answer & Hat & Hem).
    assert (labelValues m = [g_name g]) as Hm.
    { pose proof (collectOne_labels c (λ _, answer) (g_name g) (g_addr g)) as Hall.
      rewrite <- Hem in Hall. apply Forall_app in Hall as [_ Hall].
      by apply Forall_cons in Hall as [? _]. }
    pose proof (requested_stays _ i g (G_send pending) Eg) as Hreq.
    pose proof (live_stays _ i g (G_send pending) Eg) as Hlive.
    rewrite Eat in Hreq, Hlive.
    specialize (Hreq ltac:(done) ltac:(done)). specialize (Hlive ltac:(done) ltac:(done)).
    constructor; cbn [pc wg goroutines ch attempts];
      rewrite ?names_at, ?length_insert by done; try done.
    + intros j gj Hj.
      apply list_lookup_insert_Some in Hj as [(-> & <- & _)|(Hne & Hj)].
      * unfold traced. cbn [g_name g_addr g_at attempts ch].
        split_and!; [done|exact Hu|]. exists answer. split; [done|].
        rewrite emitted_snoc_same by done. by rewrite <- app_assoc.
      * apply (traced_eq c s); [reflexivity..| |by eapply Ht].
        cbn [ch]. apply emitted_snoc_other. rewrite Hm. intros [= Heq].
        by eapply (other_name (goroutines s) j i gj g).
    + match goal with
      | |- context [unvisited c ?x] => change (unvisited c x) with (unvisited c s)
      end.
      rewrite Hw. destruct (pc s); [done|lia..].
    + intros Epc. specialize (Hret Epc).
      pose proof (live_positive (goroutines s) i g Eg). rewrite Eat in *. lia.
    + apply Forall_app. split; [done|]. repeat constructor. by exists (g_name g).
    + lia.
Qed.

Lemma step_inv c s a s' : round_inv c s -> step c s a = Some s' -> round_inv c s'.
Proof.
  destruct a as [pick|i Get]; [apply step_main_inv|apply step_go_inv].
Qed.


Lemma run_inv c acts s0 s :
  round_inv c s0 -> run c acts s0 = Some s ->
  round_inv c s /\ length acts + fuel c s <= fuel c s0.
Proof.
  revert s0. induction acts as [|a acts IH]; intros s0 Hinv Hrun.
  - injection Hrun as <-. split; [done|]. cbn. lia.
  - cbn [run] in Hrun. destruct (step c s0 a) as [s1|] eqn:Estep; [|done].
    destruct (IH s1 (step_inv c s0 a s1 Hinv Estep) Hrun) as [Hinv' Hfuel].
    split; [done|]. pose proof (step_fuel c s0 a s1 Estep). cbn [length]. lia.
Qed.

Lemma all_exited (gs : list goroutine) :
  sum_list_with live gs = 0 -> Forall (λ g, g_at g = G_exit) gs.
Proof.
  intros Hsum. apply Forall_lookup. intros i g Hg.
  destruct (g_at g) eqn:Eat; [| |done];
    (assert (g_at g <> G_exit) as Hat by (by rewrite Eat));
    pose proof (live_positive gs i g Hg Hat); lia.
Qed.

Lemma all_requested (gs : list goroutine) :
  Forall (λ g, g_at g = G_exit) gs -> sum_list_with requested gs = length gs.
Proof.
  induction 1 as [|g gs Hg _ IH]; [done|].
  cbn. rewrite IH. unfold requested. by rewrite Hg.
Qed.

Lemma round_inv_returned c s : round_inv c s -> pc s = M_return -> returned c s.
Proof.
  intros [Hn Ht Hs Hc Hk Hw Hret Hch Hl Ha] Epc.
  unfold unvisited in *. rewrite Epc in *. rewrite map_size_empty in *.
  specialize (Hret eq_refl). pose proof (all_exited _ Hret) as Hexit.
  assert (forall name, name ∈ g_name <$> goroutines s ->
            exists i g, goroutines s !! i = Some g /\ g_name g = name) as Hfind.
  { intros name Hin. apply list_elem_of_fmap in Hin as (g & -> & Hin).
    apply list_elem_of_lookup in Hin as (i & Hg). by exists i, g. }
  unfold returned. split_and!.
  - rewrite Hw, Hret. done.
  - lia.
  - done.
  - rewrite Ha, all_requested by done. lia.
  - eapply Forall_impl; [exact Hch|]. intros m (name & Hin & Hm).
    exists name. split; [|done].
    destruct (Hfind name Hin) as (i & g & Hg & <-).
    destruct (Ht i g Hg) as (Hd & _). by rewrite Hd.
  - intros name addr Hd. destruct (Hc name addr Hd) as [Hr|Hin].
    { by rewrite lookup_empty in Hr. }
    destruct (Hfind name Hin) as (i & g & Hg & <-).
    destruct (Ht i g Hg) as (Hd' & _ & Hat).
    rewrite Hd in Hd'. injection Hd' as ->.
    rewrite (proj1 (Forall_lookup _ _) Hexit i g Hg) in Hat. exact Hat.
Qed.

Lemma emitted_unregistered c s name :
  returned c s -> DeviceAddrs c !! name = None -> emitted name (ch s) = [].
Proof.
  intros (_ & _ & _ & _ & Hch & _) Hname. unfold emitted.
  induction Hch as [|m out (n & Hn & Hm) _ IH]; [done|].
  rewrite filter_cons_False; [done|].
  rewrite Hm. intros [= ->]. rewrite Hname in Hn. by destruct Hn.
Qed.

(** Two rounds that got the same answer from a device sent the same metrics
    for it. *)
Lemma returned_same_answer c s s' name :
  returned c s -> returned c s' ->
  attempts_of name (attempts s') = attempts_of name (attempts s) ->
  emitted name (ch s') = emitted name (ch s).
Proof.
  intros Hs Hs' Hsame.
  destruct (DeviceAddrs c !! name) as [addr|] eqn:Hd.
  - destruct Hs as (_ & _ & _ & _ & _ & Hs). destruct Hs' as (_ & _ & _ & _ & _ & Hs').
    destruct (Hs name addr Hd) as (answer & Hat & ->).
    destruct (Hs' name addr Hd) as (answer' & Hat' & ->).
    rewrite Hat, Hat' in Hsame. by injection Hsame as ->.
  - by rewrite !(emitted_unregistered c _ name).
Qed.



End round.

(** * Further properties *)

(** ** The delimiter search and the split of a token *)

Section split.

Local Open Scope Z_scope.

Implicit Types (s substr arg name addr : string).

Lemma occurs_at_S substr c s i :
  occurs_at substr (String c s) (S i) <-> occurs_at substr s i.
Proof.
  unfold occurs_at. cbn [String.length String.substring]. split.
  - intros [Hlen Hsub]. split; [lia|done].
  - intros [Hlen Hsub]. split; [lia|done].
Qed.

Lemma string_prefix_length substr s :
  String.prefix substr s = true -> (String.length substr <= String.length s)%nat.
Proof.
  revert s. induction substr as [|c substr IH]; intros s Hp; [cbn; lia|].
  destruct s as [|c' s]; [done|]. cbn in Hp.
  destruct (ascii_dec c c'); [|done]. specialize (IH s Hp). cbn. lia.
Qed.

Lemma occurs_at_0 substr s :
  occurs_at substr s 0 <-> String.prefix substr s = true.
Proof.
  unfold occurs_at. rewrite String.prefix_correct. split.
  - by intros [_ Hsub].
  - intros Hsub. split; [|done].
    apply String.prefix_correct in Hsub. apply string_prefix_length in Hsub. lia.
Qed.

(** X1: [Strings.LastIndex] is the search that the Go library documents: the
    result is -1 exactly when the substring occurs nowhere, and otherwise it is
    the index of an occurrence that no other occurrence follows. *)
Theorem LastIndex_is_last s substr :
  (Strings.LastIndex s substr = -1 /\ forall j, ¬ occurs_at substr s j) \/
  (0 <= Strings.LastIndex s substr /\
   occurs_at substr s (Z.to_nat (Strings.LastIndex s substr)) /\
   forall j, occurs_at substr s j -> (j <= Z.to_nat (Strings.LastIndex s substr))%nat).
Proof.
  induction s as [|c rest IH].
  - cbn [Strings.LastIndex]. case_decide as Hsub.
    + subst substr. right. split_and!; [done|by split|].
      intros j [Hj _]. cbn in *. lia.
    + left. split; [done|]. intros j [Hlen _]. cbn in Hlen.
      destruct substr; [done|]. cbn in Hlen. lia.
  - cbn [Strings.LastIndex].
    destruct IH as [[Hi Hnone]|(Hi & Hocc & Hmax)].
    + rewrite Hi. change (0 <=? -1) with false. cbv iota.
      destruct (String.prefix substr (String c rest)) eqn:Hp.
      * right. split_and!; [done|by apply occurs_at_0|].
        intros [|j] Hj; [cbn; lia|]. apply occurs_at_S in Hj. by destruct (Hnone j).
      * left. split; [done|]. intros [|j] Hj.
        -- apply occurs_at_0 in Hj. congruence.
        -- apply occurs_at_S in Hj. by destruct (Hnone j).
    + rewrite (proj2 (Z.leb_le _ _)) by done. right. split_and!; [lia| |].
      * replace (Z.to_nat (Strings.LastIndex rest substr + 1))
          with (S (Z.to_nat (Strings.LastIndex rest substr))) by lia.
        by apply occurs_at_S.
      * intros [|j] Hj; [lia|]. apply occurs_at_S in Hj. specialize (Hmax j Hj). lia.
Qed.

(** X2: for a token in which '=' occurs, the two slice expressions of
    [parseDevices] are in range, the name, '=' and the address put together
    give the token back, no '=' is left in the address, and the token binds
    that name to that address. *)
Theorem parse_step_splits devices arg :
  has_delim arg = true ->
  let index := Strings.LastIndex arg "=" in
  0 <= index /\ index + 1 <= Z.of_nat (String.length arg) /\
  arg = Strings.slice_to arg index ++ "=" ++ Strings.slice_from arg (index + 1) /\
  has_delim (Strings.slice_from arg (index + 1)) = false /\
  parse_step devices arg
  = inl (<[Strings.slice_to arg index := Strings.slice_from arg (index + 1)]> devices).
Proof.
  intros Harg index. subst index.
  destruct (has_delim_token arg Harg) as (name & addr & -> & Haddr).
  rewrite (parse_step_token devices name addr Haddr).
  rewrite (LastIndex_token name addr Haddr).
  unfold token. cbn [fst snd].
  rewrite slice_to_token, slice_from_token. split_and!; try done; [lia|].
  assert (forall a b : string, String.length (a ++ b) = (String.length a + String.length b)%nat)
    as Hlen.
  { intros a b. induction a as [|c a IH]; [done|].
    rewrite append_String. cbn. by rewrite IH. }
  rewrite !Hlen. cbn. lia.
Qed.

Lemma parse_step_splits_witness :
  let index := Strings.LastIndex "a=b=c" "=" in
  "a=b=c" = Strings.slice_to "a=b=c" index ++ "=" ++ Strings.slice_from "a=b=c" (index + 1).
Proof.
  destruct (parse_step_splits ∅ "a=b=c") as (_ & _ & H & _); [reflexivity|exact H].
Defined.

End split.

(** ** The registry that parseDevices builds *)

Section registry_more.

Local Open Scope list_scope.

Implicit Types (devices : gmap string string) (pairs : list (string * string)).
Implicit Types (args : list string) (name addr arg : string).

Lemma bind_all_union devices pairs :
  bind_all devices pairs = bind_all ∅ pairs ∪ devices.
Proof.
  induction pairs as [|p pairs IH] using rev_ind.
  - cbn. by rewrite (left_id_L ∅ (∪)).
  - rewrite !bind_all_snoc, IH. by rewrite insert_union_l.
Qed.

Lemma bind_all_lookup_Some devices pairs name addr :
  bind_all devices pairs !! name = Some addr ->
  (name, addr) ∈ pairs \/ devices !! name = Some addr.
Proof.
  induction pairs as [|[n a] pairs IH] using rev_ind; [by right|].
  rewrite bind_all_snoc. cbn [fst snd]. intros Hlook.
  apply lookup_insert_Some in Hlook as [[<- <-]|[_ Hlook]].
  - left. apply elem_of_app. right. by apply list_elem_of_singleton.
  - destruct (IH Hlook) as [Hin|Hd]; [|by right].
    left. apply elem_of_app. by left.
Qed.

Lemma bind_all_size_le devices pairs :
  size (bind_all devices pairs) <= size devices + length pairs.
Proof.
  induction pairs as [|p pairs IH] using rev_ind; [cbn; lia|].
  rewrite bind_all_snoc, length_app. cbn [length].
  rewrite map_size_insert. destruct (bind_all devices pairs !! p.1); cbn; lia.
Qed.

Lemma parse_loop_app devices args args' :
  parse_loop devices (args ++ args') =
  match parse_loop devices args with
  | inl devices' => parse_loop devices' args'
  | inr err => inr err
  end.
Proof.
  revert devices. induction args as [|arg args IH]; intros devices; [done|].
  cbn [app parse_loop]. destruct (parse_step devices arg); [apply IH|done].
Qed.

Lemma parseDevices_inl args devices :
  parseDevices args = inl devices ->
  exists pairs, args = token <$> pairs /\ Forall plain pairs /\ devices = bind_all ∅ pairs.
Proof.
  intros Hparse.
  destruct (decide (Forall (λ arg, has_delim arg = true) args)) as [Hall|Hnot].
  - destruct (delimited_tokens args Hall) as (pairs & -> & Hplain).
    exists pairs. split_and!; [done..|].
    unfold parseDevices in Hparse. rewrite parse_loop_tokens in Hparse by done.
    by injection Hparse.
  - apply not_Forall_Exists in Hnot; [|apply _].
    apply Exists_exists in Hnot as (arg & Hin & Harg).
    apply not_true_is_false in Harg.
    destruct (first_undelimited args) as (before & bad & after & -> & Hb & Hbad);
      [by exists arg|].
    destruct (delimited_tokens before Hb) as (pairs & -> & Hplain).
    unfold parseDevices in Hparse.
    by rewrite parse_loop_malformed in Hparse.
Qed.

(** X3: [parseDevices] returns a map exactly when '=' occurs in every token;
    the empty list is accepted. *)
Theorem parseDevices_succeeds_iff args :
  (exists devices, parseDevices args = inl devices) <->
  Forall (λ arg, has_delim arg = true) args.
Proof.
  split.
  - intros (devices & Hparse).
    destruct (parseDevices_inl args devices Hparse) as (pairs & -> & Hplain & _).
    apply Forall_fmap. eapply Forall_impl; [exact Hplain|].
    intros [name addr] _. apply has_delim_of_token.
  - intros Hall. destruct (delimited_tokens args Hall) as (pairs & -> & Hplain).
    exists (bind_all ∅ pairs). by apply parse_loop_tokens.
Qed.

(** X4: a map that [parseDevices] returns has at most as many entries as
    there are tokens, and each of its bindings is the split of one of the
    tokens at its last '=': no address of the registry contains '='. *)
Theorem parseDevices_sound args devices :
  parseDevices args = inl devices ->
  size devices <= length args /\
  forall name addr,
    devices !! name = Some addr ->
    has_delim addr = false /\ token (name, addr) ∈ args.
Proof.
  intros Hparse.
  destruct (parseDevices_inl args devices Hparse) as (pairs & -> & Hplain & ->).
  split.
  - pose proof (bind_all_size_le ∅ pairs) as Hle.
    rewrite map_size_empty in Hle. by rewrite length_fmap.
  - intros name addr Hlook.
    apply bind_all_lookup_Some in Hlook as [Hin|Hlook]; [|by rewrite lookup_empty in Hlook].
    split.
    + exact (proj1 (Forall_forall _ _) Hplain _ Hin).
    + apply list_elem_of_fmap. by exists (name, addr).
Qed.

Lemma parseDevices_sound_witness :
  size ({[ "a" := "3"; "b" := "2" ]} : gmap string string) <= 3 /\
  forall name addr,
    ({[ "a" := "3"; "b" := "2" ]} : gmap string string) !! name = Some addr ->
    has_delim addr = false /\ token (name, addr) ∈ ["a=1"; "b=2"; "a=3"].
Proof.
  apply (parseDevices_sound ["a=1"; "b=2"; "a=3"]).
  vm_compute. reflexivity.
Defined.

(** X5: writing a registry whose addresses contain no '=' as its list of
    tokens and parsing that list gives the registry back. *)
Theorem parseDevices_round_trip devices :
  (forall name addr, devices !! name = Some addr -> has_delim addr = false) ->
  parseDevices (token <$> map_to_list devices) = inl devices.
Proof.
  intros Hplain. unfold parseDevices. rewrite parse_loop_tokens.
  - f_equal. apply map_eq. intros name.
    destruct (devices !! name) as [addr|] eqn:Hd.
    + apply bind_all_unique; [apply NoDup_fst_map_to_list|].
      by apply elem_of_map_to_list.
    + rewrite bind_all_absent; [apply lookup_empty|].
      intros Hin. apply list_elem_of_fmap in Hin as ([n a] & -> & Hin).
      apply elem_of_map_to_list in Hin. cbn in Hd. congruence.
  - apply Forall_forall. intros [name addr] Hin.
    apply elem_of_map_to_list in Hin. by apply (Hplain name addr).
Qed.

Lemma parseDevices_round_trip_witness :
  parseDevices (token <$> map_to_list Sample.devices) = inl Sample.devices.
Proof.
  apply parseDevices_round_trip.
  intros name addr Hlook. unfold Sample.devices in Hlook.
  apply lookup_insert_Some in Hlook as [[_ <-]|[_ Hlook]]; [reflexivity|].
  apply lookup_singleton_Some in Hlook as [_ <-]. reflexivity.
Defined.

(** X6: parsing two lists one after the other.  If both parse, the result for
    the concatenation is the union in which the second list wins; an error in
    the first list is the result whatever follows; an error in the second list
    is the result if the first list parses. *)
Theorem parseDevices_app args args' :
  (forall devices devices',
      parseDevices args = inl devices -> parseDevices args' = inl devices' ->
      parseDevices (args ++ args') = inl (devices' ∪ devices)) /\
  (forall err, parseDevices args = inr err -> parseDevices (args ++ args') = inr err) /\
  (forall devices err,
      parseDevices args = inl devices -> parseDevices args' = inr err ->
      parseDevices (args ++ args') = inr err).
Proof.
  unfold parseDevices. rewrite parse_loop_app. split_and!.
  - intros devices devices' Hparse Hparse'. rewrite Hparse.
    destruct (parseDevices_inl args' devices' Hparse') as (pairs & -> & Hplain & ->).
    rewrite parse_loop_tokens by done. by rewrite bind_all_union.
  - intros err Hparse. by rewrite Hparse.
  - intros devices err Hparse Hparse'. rewrite Hparse.
    destruct (decide (Forall (λ arg, has_delim arg = true) args')) as [Hall|Hnot].
    + destruct (delimited_tokens args' Hall) as (pairs & -> & Hplain).
      by rewrite parse_loop_tokens in Hparse' by done.
    + apply not_Forall_Exists in Hnot; [|apply _].
      apply Exists_exists in Hnot as (arg & Hin & Harg).
      apply not_true_is_false in Harg.
      destruct (first_undelimited args') as (before & bad & after & -> & Hb & Hbad);
        [by exists arg|].
      destruct (delimited_tokens before Hb) as (pairs & -> & Hplain).
      rewrite parse_loop_malformed in Hparse' by done.
      by rewrite parse_loop_malformed by done.
Qed.

Lemma parseDevices_app_witness :
  parseDevices (["a=1"; "b=2"] ++ ["a=3"]) = inl ({[ "a" := "3" ]} ∪ {[ "a" := "1"; "b" := "2" ]}).
Proof.
  apply (proj1 (parseDevices_app ["a=1"; "b=2"] ["a=3"])).
  - vm_compute. reflexivity.
  - vm_compute. reflexivity.
Defined.

(** X7: for tokens with pairwise distinct names, the order of the tokens on
    the command line does not matter. *)
Theorem parseDevices_any_order pairs pairs' :
  Forall plain pairs -> NoDup pairs.*1 -> pairs ≡ₚ pairs' ->
  parseDevices (token <$> pairs) = parseDevices (token <$> pairs').
Proof.
  intros Hplain Hnd Hperm.
  assert (Forall plain pairs') as Hplain' by by rewrite <- Hperm.
  assert (NoDup pairs'.*1) as Hnd' by by rewrite <- Hperm.
  unfold parseDevices. rewrite !parse_loop_tokens by done.
  f_equal. apply map_eq. intros name.
  destruct (decide (name ∈ pairs.*1)) as [Hin|Hout].
  - apply list_elem_of_fmap in Hin as ([n addr] & -> & Hin). cbn.
    rewrite (bind_all_unique pairs n addr) by done.
    rewrite (bind_all_unique pairs' n addr); [done..|]. by rewrite <- Hperm.
  - rewrite !bind_all_absent; [done| |done]. by rewrite <- Hperm.
Qed.

Lemma parseDevices_any_order_witness :
  parseDevices (token <$> [("kitchen", "10.0.0.2:80"); ("attic", "10.0.0.3:80")])
  = parseDevices (token <$> [("attic", "10.0.0.3:80"); ("kitchen", "10.0.0.2:80")]).
Proof.
  apply parseDevices_any_order.
  - by repeat constructor.
  - apply (bool_decide_unpack _). vm_compute. exact I.
  - apply Permutation_swap.
Defined.

End registry_more.

(** ** What one attempt sends *)

Section attempt_more.

Local Open Scope list_scope.

Implicit Types (c : collector) (Get : Get_t) (name addr : string).




Lemma append_cancel_r (a b s : string) : (a ++ s = b ++ s)%string -> a = b.
Proof.
  assert (forall x y : string,
            String.length (x ++ y)%string = String.length x + String.length y) as Hlen.
  { intros x y. induction x as [|c x IH]; [done|].
    rewrite append_String. cbn. by rewrite IH. }
  revert b. induction a as [|c a IH]; intros [|c' b] Heq; [done| | |].
  - apply (f_equal String.length) in Heq. rewrite !Hlen in Heq. cbn in Heq. lia.
  - apply (f_equal String.length) in Heq. rewrite !Hlen in Heq. cbn in Heq. lia.
  - rewrite !append_String in Heq. injection Heq as -> Heq. by rewrite (IH b Heq).
Qed.

(** X10: the URL of a request determines the address: two devices with
    different addresses are never asked at the same URL. *)
Theorem endpoint_inj addr addr' : endpoint addr = endpoint addr' -> addr = addr'.
Proof.
  unfold endpoint. intros Heq.
  assert (forall x y : string, ("http://" ++ x = "http://" ++ y)%string -> x = y) as Hl.
  { intros x y H. rewrite !append_String, !append_empty in H. by injection H. }
  apply Hl in Heq. by apply append_cancel_r in Heq.
Qed.

Lemma endpoint_inj_witness :
  endpoint "10.0.0.2:80" = "http://10.0.0.2:80/air-data/latest" /\
  "10.0.0.2:80" = "10.0.0.2:80".
Proof.
  split; [reflexivity|]. apply endpoint_inj. reflexivity.
Defined.

(** X11: the catalog that [Describe] sends does not depend on the client or
    on the registry: it is the same seventeen descriptors whenever it is
    asked for.  Their names are pairwise distinct and all start with awair_,
    and each has a help text. *)
Theorem Describe_fixed client devices client' devices' :
  Describe (newCollector client devices) = Describe (newCollector client' devices') /\
  length (Describe (newCollector client devices)) = 17 /\
  NoDup (fqName <$> Describe (newCollector client devices)) /\
  Forall (λ d, String.prefix "awair_" (fqName d) = true /\ help d <> "")
    (Describe (newCollector client devices)).
Proof.
  split_and!.
  - reflexivity.
  - reflexivity.
  - apply (bool_decide_unpack _). vm_compute. exact I.
  - repeat constructor; discriminate.
Qed.

End attempt_more.

(** ** Every state of a round *)

Section round_more.

Local Open Scope list_scope.

Implicit Types (c : collector) (s : state) (a : action) (g : goroutine).

Lemma live_le_length (gs : list goroutine) : sum_list_with live gs <= length gs.
Proof.
  induction gs as [|g gs IH]; [done|]. cbn.
  unfold live at 1. destruct (g_at g); lia.
Qed.

(** X12: in every state of a round the counter of the WaitGroup is between 0
    and N, so [wg.Done] never makes it negative; once [wg.Add] has run it is
    the number of devices that the loop has not visited plus the number of
    goroutines that have not finished. *)
Theorem wg_counts_unfinished c acts s :
  run c acts init = Some s ->
  (0 <= wg s <= Z.of_nat (size (DeviceAddrs c)))%Z /\
  (pc s <> M_add ->
   wg s = Z.of_nat (size (unvisited c s) + sum_list_with live (goroutines s))).
Proof.
  intros Hrun.
  destruct (run_inv c acts init s (round_inv_init c) Hrun)
    as [[Hn Ht Hs Hc Hk Hw Hret Hch Hl Ha] _].
  pose proof (live_le_length (goroutines s)) as Hle.
  split.
  - rewrite Hw. destruct (pc s); lia.
  - intros Hpc. rewrite Hw. by destruct (pc s).
Qed.

Lemma wg_counts_unfinished_witness :
  exists s,
    run Sample.c (take 8 Sample.schedule) init = Some s /\
    (0 <= wg s <= Z.of_nat (size (DeviceAddrs Sample.c)))%Z /\ wg s = 2%Z.
Proof.
  assert (exists s, run Sample.c (take 8 Sample.schedule) init = Some s /\ wg s = 2%Z)
    as (s & Hrun & Hwg).
  { vm_compute. eexists. split; reflexivity. }
  exists s. split; [exact Hrun|]. split; [|exact Hwg].
  exact (proj1 (wg_counts_unfinished Sample.c (take 8 Sample.schedule) s Hrun)).
Defined.

(** X13: at every point of a round, for every device of the registry: either
    no request has been made for it and nothing on the channel carries its
    name, or exactly one request has been made, to the endpoint of its
    address, and the metrics on the channel that carry its name are the first
    ones, in order, of what [collectOne] sends for the answer. *)
Theorem channel_is_prefix c acts s name addr :
  run c acts init = Some s ->
  DeviceAddrs c !! name = Some addr ->
  (attempts_of name (attempts s) = [] /\ emitted name (ch s) = []) \/
  exists answer,
    attempts_of name (attempts s) = [ (name, endpoint addr, answer) ] /\
    emitted name (ch s) `prefix_of` collectOne c (λ _, answer) name addr.
Proof.
  intros Hrun Hd.
  destruct (run_inv c acts init s (round_inv_init c) Hrun)
    as [[Hn Ht Hs Hc Hk Hw Hret Hch Hl Ha] _].
  destruct (decide (name ∈ g_name <$> goroutines s)) as [Hin|Hout].
  - apply list_elem_of_fmap in Hin as (g & -> & Hin).
    apply list_elem_of_lookup in Hin as (i & Hg).
    destruct (Ht i g Hg) as (Hd' & _ & Hat).
    rewrite Hd in Hd'. injection Hd' as ->.
    destruct (g_at g) as [|pending|].
    + by left.
    + right. destruct Hat as (answer & Hlog & Hout). exists answer.
      split; [done|]. by exists pending.
    + right. destruct Hat as (answer & Hlog & Hout). exists answer.
      split; [done|]. by rewrite Hout.
  - left. split.
    + by eapply attempts_of_stranger.
    + by eapply emitted_stranger.
Qed.

Lemma channel_is_prefix_witness :
  exists s,
    run Sample.c (take 8 Sample.schedule) init = Some s /\
    exists answer,
      attempts_of "kitchen" (attempts s)
      = [ ("kitchen", endpoint "10.0.0.2:80", answer) ] /\
      emitted "kitchen" (ch s)
      `prefix_of` collectOne Sample.c (λ _, answer) "kitchen" "10.0.0.2:80".
Proof.
  assert (exists s, run Sample.c (take 8 Sample.schedule) init = Some s /\
                    attempts_of "kitchen" (attempts s) <> [])
    as (s & Hrun & Hlog).
  { vm_compute. eexists. split; [reflexivity|discriminate]. }
  exists s. split; [exact Hrun|].
  destruct (channel_is_prefix Sample.c (take 8 Sample.schedule) s
              "kitchen" "10.0.0.2:80" Hrun eq_refl) as [[Hnone _]|Hsome].
  - contradiction.
  - exact Hsome.
Defined.

(** X14: once [Collect] has returned, nothing can take a step: no goroutine
    is left that could send on the channel or make a request. *)
Theorem nothing_after_return c acts s a :
  run c acts init = Some s -> pc s = M_return -> step c s a = None.
Proof.
  intros Hrun Hpc.
  destruct (run_inv c acts init s (round_inv_init c) Hrun)
    as [[Hn Ht Hs Hc Hk Hw Hret Hch Hl Ha] _].
  pose proof (all_exited _ (Hret Hpc)) as Hexit.
  destruct a as [pick|i Get]; unfold step, step_main, step_go.
  - by rewrite Hpc.
  - destruct (goroutines s !! i) as [g|] eqn:Hg; [|done].
    by rewrite (proj1 (Forall_lookup _ _) Hexit i g Hg).
Qed.

Lemma nothing_after_return_witness :
  exists s,
    run Sample.c Sample.schedule init = Some s /\
    step Sample.c s (A_go 1 Sample.healthy) = None.
Proof.
  assert (exists s, run Sample.c Sample.schedule init = Some s /\ pc s = M_return)
    as (s & Hrun & Hpc).
  { vm_compute. eexists. split; reflexivity. }
  exists s. split; [exact Hrun|].
  exact (nothing_after_return Sample.c Sample.schedule s _ Hrun Hpc).
Defined.

(** X15: with an empty registry a round starts no goroutine, makes no request
    and sends nothing, it takes at most three steps, and three steps of the
    main goroutine make [Collect] return. *)
Theorem Collect_empty_registry c :
  DeviceAddrs c = ∅ ->
  (forall acts s,
      run c acts init = Some s ->
      goroutines s = [] /\ attempts s = [] /\ ch s = [] /\ length acts <= 3) /\
  exists s, run c [A_main ""; A_main ""; A_main ""] init = Some s /\ pc s = M_return.
Proof.
  intros Hempty. split.
  - intros acts s Hrun.
    destruct (run_inv c acts init s (round_inv_init c) Hrun)
      as [[Hn Ht Hs Hc Hk Hw Hret Hch Hl Ha] Hfuel].
    rewrite Hempty, map_size_empty in Hk.
    assert (goroutines s = []) as Hnil by (apply nil_length_inv; lia).
    rewrite Hnil in Hch, Hl. split_and!; [done| | |].
    + destruct (attempts s) as [|t log]; [done|].
      apply Forall_cons in Hl as [Hin _]. by apply elem_of_nil in Hin.
    + destruct (ch s) as [|m out]; [done|].
      apply Forall_cons in Hch as [(name & Hin & _) _]. by apply elem_of_nil in Hin.
    + unfold fuel in Hfuel at 2. cbn in Hfuel. rewrite Hempty, map_size_empty in Hfuel.
      lia.
  - cbn. unfold step_main. cbn. rewrite Hempty. cbn. eexists. split; reflexivity.
Qed.

Lemma Collect_empty_registry_witness :
  exists s,
    run (newCollector {| Timeout := 2000000000 |} ∅) [A_main ""; A_main ""; A_main ""] init
    = Some s /\ pc s = M_return.
Proof.
  apply (Collect_empty_registry (newCollector {| Timeout := 2000000000 |} ∅)).
  reflexivity.
Defined.

Lemma step_owed c s a s' :
  step c s a = Some s' ->
  length (ch s) + sum_list_with owed (goroutines s) <= 16 * length (goroutines s) ->
  length (ch s') + sum_list_with owed (goroutines s') <= 16 * length (goroutines s').
Proof.
  destruct a as [pick|i Get]; unfold step, step_main, step_go.
  - destruct (pc s) as [|rest| |]; [| | |done].
    + by intros [= <-].
    + case_decide; [by intros [= <-]|].
      destruct (rest !! pick); [|done]. intros [= <-]. cbn [ch goroutines].
      rewrite sum_list_with_app, length_app. cbn. lia.
    + case_decide; [|done]. by intros [= <-].
  - destruct (goroutines s !! i) as [g|] eqn:Eg; [|done].
    destruct (g_at g) as [|[|m pending]|] eqn:Eat; [| | |done];
      intros [= <-]; cbn [ch goroutines]; rewrite length_insert;
      match goal with
      | |- context [<[i:=?g']> (goroutines s)] =>
          pose proof (sum_list_with_insert owed (goroutines s) i g g' Eg) as Hsum;
          assert (owed g' = owed g' /\ owed g = owed g) as [Hw' Hw] by done;
          unfold owed in Hw' at 2, Hw at 2; cbn [g_at] in Hw'; rewrite Eat in Hw;
          rewrite Hw, Hw' in Hsum
      end.
    + pose proof (collectOne_length c Get (g_name g) (g_addr g)). lia.
    + cbn [length] in Hsum. lia.
    + rewrite length_app. cbn [length] in *. lia.
Qed.

Lemma run_owed c acts s0 s :
  run c acts s0 = Some s ->
  length (ch s0) + sum_list_with owed (goroutines s0) <= 16 * length (goroutines s0) ->
  length (ch s) + sum_list_with owed (goroutines s) <= 16 * length (goroutines s).
Proof.
  revert s0. induction acts as [|a acts IH]; intros s0 Hrun Hs0.
  - by injection Hrun as <-.
  - cbn [run] in Hrun. destruct (step c s0 a) as [s1|] eqn:Estep; [|done].
    apply (IH s1 Hrun). by apply (step_owed c s0 a s1).
Qed.

(** X16: at every point of a round there are at most 16 N metrics on the
    channel. *)
Theorem channel_bounded c acts s :
  run c acts init = Some s ->
  length (ch s) <= 16 * size (DeviceAddrs c).
Proof.
  intros Hrun.
  destruct (run_inv c acts init s (round_inv_init c) Hrun)
    as [[Hn Ht Hs Hc Hk Hw Hret Hch Hl Ha] _].
  pose proof (run_owed c acts init s Hrun) as Howed. cbn in Howed.
  specialize (Howed ltac:(lia)). lia.
Qed.

Lemma channel_bounded_witness :
  exists s,
    run Sample.c Sample.schedule init = Some s /\
    length (ch s) <= 16 * size (DeviceAddrs Sample.c).
Proof.
  assert (exists s, run Sample.c Sample.schedule init = Some s) as (s & Hrun).
  { vm_compute. eexists. reflexivity. }
  exists s. split; [exact Hrun|].
  exact (channel_bounded Sample.c Sample.schedule s Hrun).
Defined.

Lemma collectOne_described client devices Get name addr :
  let c := newCollector client devices in
  Forall (λ m, desc m ∈ Describe c /\ well_labelled m /\
               valueType m = if decide (desc m = Errors c)
                             then CounterValue else GaugeValue)
    (collectOne c Get name addr).
Proof.
  intros c.
  destruct (collectOne_cases c Get name addr) as [->|[->|(resp & d & H1 & H2 & H3)]].
  - constructor.
  - repeat constructor.
  - rewrite (collectOne_ok _ _ _ _ _ _ H1 H2 H3). repeat constructor.
Qed.

(** X17: at every point of a round, every metric on the channel has a
    descriptor of the catalog that [Describe] sends, one label value for the
    one label of that descriptor, namely the name of a device of the
    registry, and is a counter if it is the error counter and a gauge
    otherwise. *)
Theorem channel_described client devices acts s :
  let c := newCollector client devices in
  run c acts init = Some s ->
  Forall (λ m, desc m ∈ Describe c /\ well_labelled m /\
               (exists name, is_Some (devices !! name) /\ labelValues m = [name]) /\
               valueType m = if decide (desc m = Errors c)
                             then CounterValue else GaugeValue)
    (ch s).
Proof.
  intros c Hrun.
  destruct (run_inv c acts init s (round_inv_init c) Hrun)
    as [[Hn Ht Hs Hc Hk Hw Hret Hch Hl Ha] _].
  apply Forall_forall. intros m Hm.
  destruct (proj1 (Forall_forall _ _) Hch m Hm) as (name & Hin & Hlabel).
  apply list_elem_of_fmap in Hin as (g & -> & Hin).
  apply list_elem_of_lookup in Hin as (i & Hg).
  destruct (Ht i g Hg) as (Hd & _ & Hat).
  assert (m ∈ emitted (g_name g) (ch s)) as Hem by by apply list_elem_of_filter.
  assert (exists answer, m ∈ collectOne c (λ _, answer) (g_name g) (g_addr g))
    as (answer & Hbatch).
  { destruct (g_at g) as [|pending|].
    - destruct Hat as [_ Hnil]. rewrite Hnil in Hem. by apply elem_of_nil in Hem.
    - destruct Hat as (answer & _ & Hout). exists answer. rewrite <- Hout.
      apply elem_of_app. by left.
    - destruct Hat as (answer & _ & Hout). exists answer. by rewrite <- Hout. }
  pose proof (collectOne_described client devices (λ _, answer) (g_name g) (g_addr g))
    as Hall.
  destruct (proj1 (Forall_forall _ _) Hall m Hbatch) as (H1 & H2 & H3).
  split_and!; [done..| |done].
  exists (g_name g). split; [|done]. by exists (g_addr g).
Qed.

Lemma channel_described_witness :
  exists s,
    run Sample.c Sample.schedule init = Some s /\
    Forall (λ m, desc m ∈ Describe Sample.c /\ well_labelled m) (ch s).
Proof.
  assert (exists s, run Sample.c Sample.schedule init = Some s) as (s & Hrun).
  { vm_compute. eexists. reflexivity. }
  exists s. split; [exact Hrun|].
  eapply Forall_impl.
  - exact (channel_described {| Timeout := 2000000000 |} Sample.devices
             Sample.schedule s Hrun).
  - intros m (H1 & H2 & _). by split.
Defined.

End round_more.

(** ** The channel when Collect returns *)

Section partition.

Local Open Scope list_scope.

Context {A K : Type} `{EqDecision K} (key : A -> K).

(** A list whose keys are among pairwise distinct keys is, up to order, its
    parts by key. *)
Lemma partition_by_key (keys : list K) (l : list A) :
  NoDup keys -> Forall (λ x, key x ∈ keys) l ->
  l ≡ₚ mjoin ((λ k, filter (λ x, key x = k) l) <$> keys).
Proof.
  intros Hnd. revert l. induction Hnd as [|k keys Hk Hnd IH]; intros l Hall.
  - destruct l as [|x l]; [done|].
    apply Forall_cons in Hall as [Hin _]. by apply elem_of_nil in Hin.
  - rewrite fmap_cons. simpl.
    rewrite <- (filter_app_complement (λ x, key x = k) l) at 1.
    apply Permutation_app_head.
    rewrite (IH (filter (λ x, ¬ key x = k) l)).
    + apply reflexive_eq. f_equal. apply Forall_fmap_ext, Forall_forall.
      intros k' Hk'. rewrite list_filter_filter. apply list_filter_iff.
      intros x. split; [by intros [? _]|]. intros Hx. split; [done|].
      intros Hxk. apply Hk. by rewrite <- Hxk, Hx.
    + apply Forall_forall. intros x Hx. apply list_elem_of_filter in Hx as [Hne Hx].
      pose proof (proj1 (Forall_forall _ _) Hall x Hx) as Hin.
      apply elem_of_cons in Hin as [?|?]; done.
Qed.

End partition.

Section summary.

Local Open Scope list_scope.

Implicit Types (c : collector) (s : state) (r : row) (rows : list row).

Lemma join_singletons {A B : Type} (f : A -> B) (l : list A) :
  mjoin ((λ x, [f x]) <$> l) = f <$> l.
Proof. induction l as [|x l IH]; [done|]. csimpl. by rewrite IH. Qed.

Lemma rows_of_registry c s (l : list (string * string)) :
  returned c s ->
  (forall p, p ∈ l -> DeviceAddrs c !! p.1 = Some p.2) ->
  exists rows,
    rows.*1 = l /\
    Forall (λ r, attempts_of r.1.1 (attempts s) = [ row_attempt r ] /\
                 emitted r.1.1 (ch s) = row_batch c r) rows.
Proof.
  intros (_ & _ & _ & _ & _ & Hdev). induction l as [|[name addr] l IH]; intros Hl.
  - by exists [].
  - destruct IH as (rows & <- & Hrows).
    { intros p Hp. apply Hl. by right. }
    destruct (Hdev name addr) as (answer & Hlog & Hout).
    { apply (Hl (name, addr)). by left. }
    exists ((name, addr, answer) :: rows). split; [done|]. by constructor.
Qed.

Lemma round_rows c acts s :
  run c acts init = Some s -> pc s = M_return ->
  exists rows,
    rows.*1 = map_to_list (DeviceAddrs c) /\
    attempts s ≡ₚ row_attempt <$> rows /\
    ch s ≡ₚ mjoin (row_batch c <$> rows).
Proof.
  intros Hrun Hpc.
  destruct (run_inv c acts init s (round_inv_init c) Hrun) as [Hinv _].
  pose proof (round_inv_returned c s Hinv Hpc) as Hret.
  destruct Hinv as [Hn Ht Hs Hc Hk Hw _ Hch Hl Ha].
  destruct (rows_of_registry c s (map_to_list (DeviceAddrs c)) Hret)
    as (rows & Hrows & Hall).
  { intros [name addr] Hp. by apply elem_of_map_to_list in Hp. }
  pose proof (NoDup_fst_map_to_list (DeviceAddrs c)) as Hnd.
  assert (forall name, name ∈ g_name <$> goroutines s ->
                       name ∈ (map_to_list (DeviceAddrs c)).*1) as Hreg.
  { intros name Hin. apply list_elem_of_fmap in Hin as (g & -> & Hin).
    apply list_elem_of_lookup in Hin as (i & Hg).
    destruct (Ht i g Hg) as (Hd & _).
    apply list_elem_of_fmap. exists (g_name g, g_addr g). split; [done|].
    by apply elem_of_map_to_list. }
  exists rows. split_and!; [done| |].
  - rewrite (partition_by_key (λ t : attempt, t.1.1)
               (map_to_list (DeviceAddrs c)).*1 (attempts s) Hnd).
    + rewrite <- Hrows, <- !list_fmap_compose.
      rewrite <- (join_singletons row_attempt rows).
      apply reflexive_eq. f_equal. apply Forall_fmap_ext.
      eapply Forall_impl; [exact Hall|]. by intros r [Hlog _].
    + eapply Forall_impl; [exact Hl|]. intros t Hin. by apply Hreg.
  - assert (Inj (=) (=) (λ name : string, [name])) as Hinj by (by intros x y [= ->]).
    rewrite (partition_by_key labelValues
               ((λ name, [name]) <$> (map_to_list (DeviceAddrs c)).*1) (ch s)).
    + rewrite <- Hrows, <- !list_fmap_compose.
      apply reflexive_eq. f_equal. apply Forall_fmap_ext.
      eapply Forall_impl; [exact Hall|]. by intros r [_ Hout].
    + by apply (NoDup_fmap_2 _).
    + eapply Forall_impl; [exact Hch|]. intros m (name & Hin & ->).
      apply list_elem_of_fmap. exists name. split; [done|]. by apply Hreg.
Qed.

(** X18: when [Collect] returns, the log of requests is, up to order, one
    request for each device of the registry, to the endpoint of its address,
    and the channel holds, up to order, exactly what [collectOne] sends for
    each device and the answer it got: the union of the batches, nothing
    more. *)
Theorem Collect_union c acts s :
  run c acts init = Some s -> pc s = M_return ->
  exists rows : list row,
    rows.*1 ≡ₚ map_to_list (DeviceAddrs c) /\
    attempts s ≡ₚ row_attempt <$> rows /\
    ch s ≡ₚ mjoin (row_batch c <$> rows).
Proof.
  intros Hrun Hpc.
  destruct (round_rows c acts s Hrun Hpc) as (rows & Hrows & Hlog & Hout).
  exists rows. by rewrite Hrows.
Qed.

Lemma Collect_union_witness :
  exists s,
    run Sample.c Sample.schedule init = Some s /\
    exists rows : list row,
      rows.*1 ≡ₚ map_to_list (DeviceAddrs Sample.c) /\
      attempts s ≡ₚ row_attempt <$> rows /\
      ch s ≡ₚ mjoin (row_batch Sample.c <$> rows).
Proof.
  assert (exists s, run Sample.c Sample.schedule init = Some s /\ pc s = M_return)
    as (s & Hrun & Hpc).
  { vm_compute. eexists. split; reflexivity. }
  exists s. split; [exact Hrun|].
  exact (Collect_union Sample.c Sample.schedule s Hrun Hpc).
Defined.

Lemma row_batch_counts c r :
  length (filter (λ m, valueType m = CounterValue) (row_batch c r))
  = (if decide (verdict_of r.2 = Counted) then 1 else 0) /\
  length (filter (λ m, valueType m = GaugeValue) (row_batch c r))
  = (if decide (verdict_of r.2 = Read) then 16 else 0) /\
  length (row_batch c r)
  = match verdict_of r.2 with Dropped => 0 | Counted => 1 | Read => 16 end.
Proof.
  unfold row_batch, collectOne, verdict_of.
  destruct r.2 as [resp|err]; [|done].
  destruct (StatusCode resp =? 200)%Z; [|done].
  by destruct (Body resp).
Qed.

Lemma rows_counts c rows :
  length (filter (λ m, valueType m = CounterValue) (mjoin (row_batch c <$> rows)))
  = length (filter (λ t : attempt, verdict_of t.2 = Counted) (row_attempt <$> rows)) /\
  length (filter (λ m, valueType m = GaugeValue) (mjoin (row_batch c <$> rows)))
  = 16 * length (filter (λ t : attempt, verdict_of t.2 = Read) (row_attempt <$> rows)) /\
  length (mjoin (row_batch c <$> rows))
  = length (filter (λ t : attempt, verdict_of t.2 = Counted) (row_attempt <$> rows))
    + 16 * length (filter (λ t : attempt, verdict_of t.2 = Read) (row_attempt <$> rows)).
Proof.
  induction rows as [|r rows (IH1 & IH2 & IH3)]; [done|].
  csimpl. rewrite !filter_app, !length_app, IH1, IH2, IH3.
  destruct (row_batch_counts c r) as (-> & -> & ->).
  rewrite !filter_cons. change (row_attempt r).2 with r.2.
  destruct (verdict_of r.2); repeat case_decide; try done; cbn [length]; lia.
Qed.

(** X19: when [Collect] returns, the channel holds one error counter for each
    device that answered with a status other than 200 or with a body that does
    not decode, sixteen gauges for each device that answered with a reading,
    and nothing for a device whose request failed; in particular, if every
    request failed the channel is empty. *)
Theorem Collect_counts c acts s :
  run c acts init = Some s -> pc s = M_return ->
  length (filter (λ m, valueType m = CounterValue) (ch s))
  = length (filter (λ t : attempt, verdict_of t.2 = Counted) (attempts s)) /\
  length (filter (λ m, valueType m = GaugeValue) (ch s))
  = 16 * length (filter (λ t : attempt, verdict_of t.2 = Read) (attempts s)) /\
  length (ch s)
  = length (filter (λ t : attempt, verdict_of t.2 = Counted) (attempts s))
    + 16 * length (filter (λ t : attempt, verdict_of t.2 = Read) (attempts s)) /\
  (Forall (λ t : attempt, verdict_of t.2 = Dropped) (attempts s) -> ch s = []).
Proof.
  intros Hrun Hpc.
  destruct (round_rows c acts s Hrun Hpc) as (rows & _ & Hlog & Hout).
  destruct (rows_counts c rows) as (H1 & H2 & H3).
  rewrite <- Hlog in H1, H2, H3. rewrite <- Hout in H1, H2, H3.
  split_and!; [done..|].
  intros Hall. apply nil_length_inv. rewrite H3.
  assert (forall (log : list attempt) v,
            Forall (λ t : attempt, verdict_of t.2 = Dropped) log -> v <> Dropped ->
            filter (λ t : attempt, verdict_of t.2 = v) log = []) as Hnone.
  { intros log v Hlog' Hv. induction Hlog' as [|t log Ht _ IH]; [done|].
    rewrite filter_cons_False; [done|]. by rewrite Ht. }
  by rewrite !Hnone.
Qed.

Lemma Collect_counts_witness :
  exists s,
    run Sample.c Sample.schedule init = Some s /\
    length (filter (λ m, valueType m = CounterValue) (ch s)) = 0 /\
    length (filter (λ m, valueType m = GaugeValue) (ch s)) = 16.
Proof.
  assert (exists s, run Sample.c Sample.schedule init = Some s /\ pc s = M_return /\
                    length (filter (λ t : attempt, verdict_of t.2 = Counted) (attempts s)) = 0 /\
                    length (filter (λ t : attempt, verdict_of t.2 = Read) (attempts s)) = 1)
    as (s & Hrun & Hpc & Hc & Hr).
  { vm_compute. eexists. split_and!; reflexivity. }
  exists s. split; [exact Hrun|].
  destruct (Collect_counts Sample.c Sample.schedule s Hrun Hpc) as (H1 & H2 & _).
  rewrite H1, H2, Hc, Hr. split; reflexivity.
Defined.

End summary.

(** ** Schedules *)

Section schedules.

Local Open Scope list_scope.

Implicit Types (c : collector) (s : state) (acts : list action).






Lemma channel_partition c acts s :
  run c acts init = Some s ->
  ch s ≡ₚ mjoin ((λ name, emitted name (ch s)) <$> (map_to_list (DeviceAddrs c)).*1).
Proof.
  intros Hrun.
  destruct (run_inv c acts init s (round_inv_init c) Hrun)
    as [[Hn Ht Hs Hc Hk Hw Hret Hch Hl Ha] _].
  assert (Inj (=) (=) (λ name : string, [name])) as Hinj by (by intros x y [= ->]).
  rewrite (partition_by_key labelValues
             ((λ name, [name]) <$> (map_to_list (DeviceAddrs c)).*1) (ch s)) at 1.
  - by rewrite <- list_fmap_compose.
  - apply (NoDup_fmap_2 _). apply NoDup_fst_map_to_list.
  - eapply Forall_impl; [exact Hch|]. intros m (name & Hin & ->).
    apply list_elem_of_fmap. exists name. split; [done|].
    apply list_elem_of_fmap in Hin as (g & -> & Hin).
    apply list_elem_of_lookup in Hin as (i & Hg).
    destruct (Ht i g Hg) as (Hd & _).
    apply list_elem_of_fmap. exists (g_name g, g_addr g). split; [done|].
    by apply elem_of_map_to_list.
Qed.

(** X21: the schedule decides the order of the channel and nothing else: two
    rounds that have returned and in which the devices gave the same answers
    (the logs of requests agree up to order) hold the same metrics up to
    order, and the same metrics in the same order for each device. *)
Theorem Collect_order_only c acts acts' s s' :
  run c acts init = Some s -> pc s = M_return ->
  run c acts' init = Some s' -> pc s' = M_return ->
  attempts s ≡ₚ attempts s' ->
  ch s ≡ₚ ch s' /\ forall name, emitted name (ch s) = emitted name (ch s').
Proof.
  intros Hrun Hpc Hrun' Hpc' Hlog.
  destruct (run_inv c acts init s (round_inv_init c) Hrun) as [Hinv _].
  destruct (run_inv c acts' init s' (round_inv_init c) Hrun') as [Hinv' _].
  pose proof (round_inv_returned c s Hinv Hpc) as Hret.
  pose proof (round_inv_returned c s' Hinv' Hpc') as Hret'.
  assert (forall name, emitted name (ch s) = emitted name (ch s')) as Hsame.
  { intros name. apply (returned_same_answer c s' s name Hret' Hret).
    destruct (DeviceAddrs c !! name) as [addr|] eqn:Hd.
    - destruct Hret as (_ & _ & _ & _ & _ & Hdev).
      destruct Hret' as (_ & _ & _ & _ & _ & Hdev').
      destruct (Hdev name addr Hd) as (answer & Hat & _).
      destruct (Hdev' name addr Hd) as (answer' & Hat' & _).
      assert (attempts_of name (attempts s) ≡ₚ attempts_of name (attempts s')) as Hp
        by (unfold attempts_of; by rewrite Hlog).
      rewrite Hat, Hat' in Hp. apply Permutation_singleton_inj in Hp.
      by rewrite Hat, Hat', Hp.
    - destruct Hinv as [_ Ht _ _ _ _ _ _ Hl _]. destruct Hinv' as [_ Ht' _ _ _ _ _ _ Hl' _].
      assert (forall (t : state) , (forall i g, goroutines t !! i = Some g -> traced c t g) ->
                name ∉ g_name <$> goroutines t) as Hout.
      { intros t Htr Hin. apply list_elem_of_fmap in Hin as (g & -> & Hin).
        apply list_elem_of_lookup in Hin as (i & Hg).
        destruct (Htr i g Hg) as (Hd' & _). congruence. }
      rewrite (attempts_of_stranger name _ _ Hl (Hout s Ht)).
      by rewrite (attempts_of_stranger name _ _ Hl' (Hout s' Ht')). }
  split; [|done].
  rewrite (channel_partition c acts s Hrun), (channel_partition c acts' s' Hrun').
  apply reflexive_eq. f_equal. apply Forall_fmap_ext, Forall_forall.
  intros name _. apply Hsame.
Qed.

Lemma Collect_order_only_witness :
  exists s s',
    run Sample.c Sample.schedule init = Some s /\
    run Sample.c schedule' init = Some s' /\
    ch s ≡ₚ ch s'.
Proof.
  assert (exists s s',
            run Sample.c Sample.schedule init = Some s /\ pc s = M_return /\
            run Sample.c schedule' init = Some s' /\ pc s' = M_return /\
            attempts s' = reverse (attempts s))
    as (s & s' & Hrun & Hpc & Hrun' & Hpc' & Hlog).
  { vm_compute. do 2 eexists. split_and!; reflexivity. }
  exists s, s'. split_and!; [done..|].
  apply (Collect_order_only Sample.c Sample.schedule schedule' s s' Hrun Hpc Hrun' Hpc').
  by rewrite Hlog, reverse_Permutation.
Defined.

End schedules.

(** ** The entry point *)

Section entry.

Local Open Scope list_scope.

Implicit Types (devices : gmap string string) (args : list string).




End entry.

(** ** Whole degrees *)

Section whole_degrees.

Local Open Scope Z_scope.

(** X23: for every multiple of 5 degrees Celsius from -10000 to 10000 the
    Fahrenheit value is exact: it is the whole number 9 C / 5 + 32, with no
    rounding error. *)
Theorem celsiusToFahrenheit_exact_on_fives (k : Z) :
  -2000 <= k <= 2000 ->
  celsiusToFahrenheit (float64_of_int (5 * k)) = float64_of_int (9 * k + 32).
Proof.
  intros Hk.
  assert (forallb (λ k, PrimFloat.Leibniz.eqb
                          (celsiusToFahrenheit (float64_of_int (5 * k)))
                          (float64_of_int (9 * k + 32)))
            (seqZ (-2000) 4001) = true) as Hall
    by (vm_compute; reflexivity).
  rewrite forallb_forall in Hall.
  apply FloatAxioms.Leibniz.eqb_spec, Hall.
  apply list_elem_of_In, elem_of_seqZ. lia.
Qed.

Lemma celsiusToFahrenheit_exact_on_fives_witness :
  celsiusToFahrenheit (float64_of_int (5 * -8)) = float64_of_int (9 * -8 + 32).
Proof.
  apply celsiusToFahrenheit_exact_on_fives. lia.
Defined.

End whole_degrees.
